(** * Leader-driven replication: the versioned store, the request handlers
    and the replication broadcaster of leader-replication-go.

  The development follows the Go packages of the repository:
  [Store] is internal/store, [Cluster] is internal/cluster, [Repl] is
  internal/repl and [Api] is internal/api.  Definitions come first, the
  theorems about them follow. *)

From Stdlib Require Import ZArith Lia Ascii.
From stdpp Require Import base strings list gmap fin_maps.

Local Open Scope Z_scope.

(* ===================================================================== *)
(** ** internal/store/store.go *)
(* ===================================================================== *)

Module Store.

(** A [time.Time] is represented by the instant it denotes, counted in
    nanoseconds from Go's zero time, the instant of [time.Time{}].
    [t.Before(u)] compares the instants and nothing else. *)
Definition Time : Type := Z.

Definition zeroTime : Time := 0.
Definition Before (t u : Time) : bool := t <? u.

(** [type Entry struct { Key, Value string; TS time.Time }] *)
Record Entry : Type := mkEntry {
  Key : string;
  Value : string;
  TS : Time
}.

(** The zero value [Entry{}], which a Go map lookup yields for a missing
    key. *)
Definition zeroEntry : Entry := mkEntry "" "" zeroTime.

(** [type KV struct { mu sync.RWMutex; data map[string]Entry }].  A store
    comes from [New], so [data] is a map and never [nil].  Every method
    runs under [mu], so a method is one atomic transition of [data]. *)
Record KV : Type := mkKV {
  data : gmap string Entry
}.

(** [func New() *KV] *)
Definition New : KV := mkKV ∅.

(** The two-valued map index [cur, ok := m[k]]. *)
Definition index (m : gmap string Entry) (k : string) : Entry * bool :=
  match m !! k with
  | Some e => (e, true)
  | None => (zeroEntry, false)
  end.

(** [func (kv *KV) Upsert(e Entry)] *)
Definition Upsert (kv : KV) (e : Entry) : KV :=
  let '(cur, ok) := index (data kv) (Key e) in
  if negb ok || negb (Before (TS e) (TS cur))
  then mkKV (<[Key e := e]> (data kv))
  else kv.

(** [func (kv *KV) Get(key string) (Entry, bool)] *)
Definition Get (kv : KV) (key : string) : Entry * bool :=
  index (data kv) key.

(** [func (kv *KV) Snapshot() map[string]Entry]: a fresh map, filled by
    the loop [for k, v := range kv.data { copy[k] = v }]. *)
Definition Snapshot (kv : KV) : gmap string Entry :=
  map_fold (fun k v copy => <[k := v]> copy) ∅ (data kv).

End Store.

(* ===================================================================== *)
(** ** internal/cluster/node.go *)
(* ===================================================================== *)

Module Cluster.

(** [type Role string] and [type Mode string], with their constants. *)
Definition RoleT : Type := string.
Definition Leader : RoleT := "leader".
Definition Follower : RoleT := "follower".

Definition ModeT : Type := string.
Definition Sync : ModeT := "sync".
Definition Async : ModeT := "async".

(** [type NodeConfig struct].  [BlockPeers] is the partition filter. *)
Record NodeConfig : Type := mkNodeConfig {
  ID : string;
  Role : RoleT;
  Mode : ModeT;
  Port : Z;
  Peers : list string;
  BlockPeers : gmap string bool
}.

(** *** The pieces of Go's [strings] package that [NormalizePeers] calls.
    A Go string is a sequence of bytes, here a [string] of 8-bit [ascii]. *)

Definition byte (n : nat) : ascii := ascii_of_nat n.

(** [asciiSpace]: tab, line feed, vertical tab, form feed, carriage return
    and space. *)
Definition isAsciiSpace (c : ascii) : bool :=
  let n := nat_of_ascii c in
  ((9 <=? n) && (n <=? 13) || (n =? 32))%nat.

(** The two-byte UTF-8 encodings of the runes [unicode.IsSpace] accepts:
    U+0085 and U+00A0. *)
Definition isSpace2 (c1 c2 : ascii) : bool :=
  let a := nat_of_ascii c1 in
  let b := nat_of_ascii c2 in
  ((a =? 194) && ((b =? 133) || (b =? 160)))%nat.

(** The three-byte ones: U+1680, U+2000..U+200A, U+2028, U+2029, U+202F,
    U+205F and U+3000. *)
Definition isSpace3 (c1 c2 c3 : ascii) : bool :=
  let a := nat_of_ascii c1 in
  let b := nat_of_ascii c2 in
  let c := nat_of_ascii c3 in
  ((a =? 225) && (b =? 154) && (c =? 128)
   || (a =? 226) && (b =? 128)
      && ((128 <=? c) && (c <=? 138) || (c =? 168) || (c =? 169) || (c =? 175))
   || (a =? 226) && (b =? 129) && (c =? 159)
   || (a =? 227) && (b =? 128) && (c =? 128))%nat.

(** Strips the white-space runes at the front of [s].  With [back] set, [s]
    is a string read from its end, so an encoding shows its last byte
    first. *)
Fixpoint trimFront (back : bool) (s : string) : string :=
  match s with
  | String c1 s1 =>
      if isAsciiSpace c1 then trimFront back s1 else
      match s1 with
      | String c2 s2 =>
          if (if back then isSpace2 c2 c1 else isSpace2 c1 c2)
          then trimFront back s2 else
          match s2 with
          | String c3 s3 =>
              if (if back then isSpace3 c3 c2 c1 else isSpace3 c1 c2 c3)
              then trimFront back s3 else s
          | EmptyString => s
          end
      | EmptyString => s
      end
  | EmptyString => s
  end.

(** [strings.TrimSpace]: white space removed at both ends. *)
Definition TrimSpace (s : string) : string :=
  String.rev (trimFront true (String.rev (trimFront false s))).

(** [strings.Split(s, ",")]: the pieces of [s] between commas; one more
    piece than there are commas. *)
Fixpoint Split (s : string) : list string :=
  match s with
  | EmptyString => [EmptyString]
  | String c s' =>
      if Ascii.eqb c ","%char then EmptyString :: Split s'
      else match Split s' with
           | p :: ps => String c p :: ps
           | [] => [String c EmptyString]
           end
  end.

(** *** [net/url], as far as [NormalizePeers] uses it: [url.Parse], the
    fields [Scheme] and [Host] of its result, and the [String] method of the parsed URL.  The
    package is not part of this repository; the functions are taken as
    given. *)
Class NetURL : Type := mkNetURL {
  URL : Type;
  Parse : string → option URL;      (* [None]: [err != nil] *)
  Scheme : URL → string;
  Host : URL → string;
  URLString : URL → string
}.

Section NormalizePeers.

Context `{NetURL}.

(** One turn of the loop body, [out] being the slice built so far. *)
Definition normalizeStep (out : list string) (p : string) : list string :=
  let p := TrimSpace p in
  if bool_decide (p = "") then out
  else
    match Parse p with
    | Some u =>
        if bool_decide (Scheme u ≠ "") && bool_decide (Host u ≠ "")
        then out ++ [URLString u]
        else out ++ ["http://" +:+ p]
    | None => out ++ ["http://" +:+ p]
    end.

(** [func NormalizePeers(peersCSV string) []string]; the [nil] slice is the
    empty list. *)
Definition NormalizePeers (peersCSV : string) : list string :=
  if bool_decide (TrimSpace peersCSV = "") then []
  else foldl normalizeStep [] (Split peersCSV).

End NormalizePeers.

End Cluster.

(* ===================================================================== *)
(** ** internal/repl/repl.go *)
(* ===================================================================== *)

Module Repl.

(** [type ReplicateRequest struct] *)
Record ReplicateRequest : Type := mkReplicateRequest {
  Key : string;
  Value : string;
  TS : Store.Time;
  ReqID : string
}.

(** [type ReplicateResponse struct] *)
Record ReplicateResponse : Type := mkReplicateResponse {
  Status : string
}.

(** [json.Marshal(body)] fails for one reason only: [time.Time.MarshalJSON]
    refuses a time whose year is outside 0..9999.  The timestamps here are
    UTC instants, as [handlePut] makes them; year 0 begins 366 days before
    Go's zero time and year 10000 begins 3652059 days after it. *)
Definition yearZero : Store.Time := - (366 * 86400 * 1000000000).
Definition yearTenThousand : Store.Time := 3652059 * 86400 * 1000000000.

Definition marshals (body : ReplicateRequest) : bool :=
  (yearZero <=? TS body) && (TS body <? yearTenThousand).

Definition marshalError : string :=
  "json: error calling MarshalJSON for type time.Time: "
  +:+ "Time.MarshalJSON: year outside of range [0,9999]".

(** What [client.Post] comes back with: an error (the peer is unreachable,
    refuses, or the client's timeout expires) or a response with its status
    code and status text, as in "403 Forbidden". *)
Inductive PostAnswer : Type :=
| PostError (err : string)
| PostStatus (code : Z) (status : string).

(** [func PostReplicate(client, baseURL, body) error]; [None] is the [nil]
    error.  [answer] is the answer of the network to the one [client.Post]
    the function makes; when the body does not marshal it returns before
    that call. *)
Definition PostReplicate (answer : PostAnswer) (baseURL : string)
    (body : ReplicateRequest) : option string :=
  if negb (marshals body) then
    Some ("failed to marshal replicate request: " +:+ marshalError)
  else
    let url := baseURL +:+ "/replicate" in
    match answer with
    | PostError err => Some ("http post to " +:+ url +:+ " failed: " +:+ err)
    | PostStatus code status =>
        if code =? 200 then None
        else Some ("non-200 status from follower " +:+ url +:+ ": " +:+ status)
    end.

End Repl.

(* ===================================================================== *)
(** ** internal/api/http.go *)
(* ===================================================================== *)

Module Api.

(** [type Server struct]: the node's configuration and its store.  The
    HTTP client and the logger carry no state of the replication engine;
    the mutex [mu] makes each access to [cfg.BlockPeers] atomic. *)
Record Server : Type := mkServer {
  cfg : Cluster.NodeConfig;
  store : Store.KV
}.

(** [type PutRequest struct] *)
Record PutRequest : Type := mkPutRequest {
  Key : string;
  Value : string
}.

(** [type PutResponse struct] *)
Record PutResponse : Type := mkPutResponse {
  Status : string;
  Mode : string;
  ReqID : string
}.

(** An [*http.Request] as a handler whose JSON target type is [A] reads it:
    the method, the query parameters ([url.Values]), and what
    [json.NewDecoder(r.Body).Decode(&req)] makes of the body, [None] when it
    returns an error. *)
Record Request (A : Type) : Type := mkRequest {
  Method : string;
  Query : gmap string (list string);
  Body : option A
}.
Arguments mkRequest {A} _ _ _.
Arguments Method {A} _.
Arguments Query {A} _.
Arguments Body {A} _.

(** [url.Values.Get]: the first value of the parameter, the empty string
    when there is none. *)
Definition QueryGet (q : gmap string (list string)) (key : string) : string :=
  match q !! key with
  | Some (v :: _) => v
  | _ => ""
  end.

Definition MethodGet : string := "GET".
Definition MethodPost : string := "POST".

Definition StatusOK : Z := 200.
Definition StatusBadRequest : Z := 400.
Definition StatusForbidden : Z := 403.
Definition StatusMethodNotAllowed : Z := 405.

(** The JSON documents the handlers write. *)
Inductive Payload : Type :=
| ErrorResponse (Error : string)
| PutResponseJSON (p : PutResponse)
| ReplicateResponseJSON (p : Repl.ReplicateResponse)
| BlockPeersJSON (m : gmap string bool).

(** What a handler writes to its [http.ResponseWriter]. *)
Record Response : Type := mkResponse {
  Code : Z;
  Written : Payload
}.

(** [func (s *Server) respondJSON(w, code, payload)]; encoding one of the
    payloads above does not fail. *)
Definition respondJSON (code : Z) (payload : Payload) : Response :=
  mkResponse code payload.

(** [func (s *Server) respondError(w, code, message)] *)
Definition respondError (code : Z) (message : string) : Response :=
  respondJSON code (ErrorResponse message).

(** The response both branches of [handlePut] end with. *)
Definition putOK (s : Server) (reqID : string) : Response :=
  respondJSON StatusOK
    (PutResponseJSON (mkPutResponse "ok" (Cluster.Mode (cfg s)) reqID)).

(** [func (s *Server) handlePut(w, r)].  [reqID] is what [uuid.NewString()]
    returns and [now] is [time.Now().UTC()].  The result is the response,
    the server afterwards, and the replication request handed to
    [broadcastReplication] when the write is accepted.  The order in time of
    the response and the broadcast is that of [step] below. *)
Definition handlePut (s : Server) (reqID : string) (now : Store.Time)
    (r : Request PutRequest)
    : Response * Server * option Repl.ReplicateRequest :=
  if bool_decide (Method r ≠ MethodPost) then
    (respondError StatusMethodNotAllowed "method not allowed", s, None)
  else if bool_decide (Cluster.Role (cfg s) ≠ Cluster.Leader) then
    (respondError StatusForbidden "not a leader", s, None)
  else
    match Body r with
    | None => (respondError StatusBadRequest "invalid request body", s, None)
    | Some req =>
        if bool_decide (Key req = "") then
          (respondError StatusBadRequest "key cannot be empty", s, None)
        else
          let entry := Store.mkEntry (Key req) (Value req) now in
          let s' := mkServer (cfg s) (Store.Upsert (store s) entry) in
          let replReq :=
            Repl.mkReplicateRequest (Store.Key entry) (Store.Value entry)
              (Store.TS entry) reqID in
          (putOK s' reqID, s', Some replReq)
    end.

(** [func (s *Server) handleReplicate(w, r)] *)
Definition handleReplicate (s : Server) (r : Request Repl.ReplicateRequest)
    : Response * Server :=
  if bool_decide (Method r ≠ MethodPost) then
    (respondError StatusMethodNotAllowed "method not allowed", s)
  else if bool_decide (Cluster.Role (cfg s) = Cluster.Leader) then
    (respondError StatusForbidden "leader cannot replicate to itself", s)
  else
    match Body r with
    | None => (respondError StatusBadRequest "invalid replication body", s)
    | Some req =>
        let entry :=
          Store.mkEntry (Repl.Key req) (Repl.Value req) (Repl.TS req) in
        (respondJSON StatusOK
           (ReplicateResponseJSON (Repl.mkReplicateResponse "ok")),
         mkServer (cfg s) (Store.Upsert (store s) entry))
    end.

(** [s.cfg.BlockPeers = m], the rest of the server as it is. *)
Definition setBlockPeers (s : Server) (m : gmap string bool) : Server :=
  let c := cfg s in
  mkServer
    (Cluster.mkNodeConfig (Cluster.ID c) (Cluster.Role c) (Cluster.Mode c)
       (Cluster.Port c) (Cluster.Peers c) m)
    (store s).

(** [func (s *Server) handlePartition(w, r)]; the handler decodes no body. *)
Definition handlePartition (s : Server) (r : Request unit)
    : Response * Server :=
  if bool_decide (Method r ≠ MethodPost) then
    (respondError StatusMethodNotAllowed "method not allowed", s)
  else
    let blockPeer := QueryGet (Query r) "block" in
    let unblockPeer := QueryGet (Query r) "unblock" in
    let m := Cluster.BlockPeers (cfg s) in
    let m := if bool_decide (blockPeer ≠ "") then <[blockPeer := true]> m
             else m in
    let m := if bool_decide (unblockPeer ≠ "") then delete unblockPeer m
             else m in
    (respondJSON StatusOK (BlockPeersJSON m), setBlockPeers s m).

(** [s.cfg.BlockPeers[url]]: a missing key reads as [false]. *)
Definition blocked (s : Server) (url : string) : bool :=
  default false (Cluster.BlockPeers (cfg s) !! url).

(** *** [handlePut] from its step 5 on, and [broadcastReplication]

    The handler, the broadcast and the goroutines it starts run
    concurrently, and so do other requests to the server.  A state holds
    the program point of each of them, the wait group's counter and the
    calls made to [repl.PostReplicate]; [step] is one atomic action of one
    of them. *)

(** What a peer's goroutine logs before it ends. *)
Inductive Outcome : Type :=
| Skipped                   (* "skipped replication to ... (blocked)" *)
| Replicated                (* "replicated to ... successfully" *)
| Errored (err : string).   (* "ERROR replicating to ..." *)

(** The program points of [go func(url string) { ... }(peerURL)]. *)
Inductive TaskPc : Type :=
| AtCheck                   (* about to read [s.cfg.BlockPeers[url]] *)
| AtBranch                  (* [isBlocked] assigned, about to test it *)
| AtDefer (o : Outcome)     (* body over, the deferred [wg.Done()] pending *)
| Exited (o : Outcome).

(** A goroutine: its argument [url], its local [isBlocked] ([None] before
    the assignment) and its program point. *)
Record Task : Type := mkTask {
  url : string;
  isBlocked : option bool;
  pc : TaskPc
}.

(** The program points of [broadcastReplication]. *)
Inductive BroadcastPc : Type :=
| NotCalled
| InLoop (rest : list string)   (* in [for _, peerURL := range s.cfg.Peers] *)
| AtWait                        (* in [wg.Wait()] *)
| Returned.

(** The program points of [handlePut] from [if s.cfg.Mode == cluster.Async]
    on. *)
Inductive HandlerPc : Type :=
| AtMode                        (* about to test [s.cfg.Mode] *)
| InCall                        (* inside the call [s.broadcastReplication] *)
| AtRespond                     (* about to call [s.respondJSON] *)
| Responded (resp : Response).

Record State : Type := mkState {
  srv : Server;
  handler : HandlerPc;
  bcast : BroadcastPc;
  wg : Z;
  tasks : list Task;
  posts : list (string * Repl.ReplicateRequest)
}.

Section Broadcast.

(** The replication request [replReq] that [handlePut] built. *)
Variable req : Repl.ReplicateRequest.

Definition init (s : Server) : State :=
  mkState s AtMode NotCalled 0 [] [].

Definition outcomeOf (err : option string) : Outcome :=
  match err with
  | None => Replicated
  | Some e => Errored e
  end.

(** The actions of the handler and of [broadcastReplication]. *)
Inductive main_step : State → State → Prop :=
| step_go_broadcast s w ts ps :
    (* [go s.broadcastReplication(replReq)] *)
    Cluster.Mode (cfg s) = Cluster.Async →
    main_step (mkState s AtMode NotCalled w ts ps)
              (mkState s AtRespond (InLoop (Cluster.Peers (cfg s))) w ts ps)
| step_call_broadcast s w ts ps :
    (* [s.broadcastReplication(replReq)] *)
    Cluster.Mode (cfg s) ≠ Cluster.Async →
    main_step (mkState s AtMode NotCalled w ts ps)
              (mkState s InCall (InLoop (Cluster.Peers (cfg s))) w ts ps)
| step_spawn s h peerURL rest w ts ps :
    (* [wg.Add(1); go func(url string) {...}(peerURL)] *)
    main_step (mkState s h (InLoop (peerURL :: rest)) w ts ps)
              (mkState s h (InLoop rest) (w + 1)
                 (ts ++ [mkTask peerURL None AtCheck]) ps)
| step_loop_end_sync s h w ts ps :
    Cluster.Mode (cfg s) = Cluster.Sync →
    main_step (mkState s h (InLoop []) w ts ps)
              (mkState s h AtWait w ts ps)
| step_loop_end_nowait s h w ts ps :
    Cluster.Mode (cfg s) ≠ Cluster.Sync →
    main_step (mkState s h (InLoop []) w ts ps)
              (mkState s h Returned w ts ps)
| step_wait s h ts ps :
    (* [wg.Wait()] returns when the counter is zero *)
    main_step (mkState s h AtWait 0 ts ps)
              (mkState s h Returned 0 ts ps)
| step_return s w ts ps :
    main_step (mkState s InCall Returned w ts ps)
              (mkState s AtRespond Returned w ts ps)
| step_respond s b w ts ps :
    main_step (mkState s AtRespond b w ts ps)
              (mkState s (Responded (putOK s (Repl.ReqID req))) b w ts ps).

(** The actions of the goroutine at position [i] of [tasks]. *)
Inductive task_step (i : nat) : State → State → Prop :=
| step_check s h b w ts ps u :
    (* [s.mu.Lock(); isBlocked := s.cfg.BlockPeers[url]; s.mu.Unlock()] *)
    ts !! i = Some (mkTask u None AtCheck) →
    task_step i (mkState s h b w ts ps)
      (mkState s h b w (<[i := mkTask u (Some (blocked s u)) AtBranch]> ts) ps)
| step_skip s h b w ts ps u :
    (* [if isBlocked { log; return }] *)
    ts !! i = Some (mkTask u (Some true) AtBranch) →
    task_step i (mkState s h b w ts ps)
      (mkState s h b w (<[i := mkTask u (Some true) (AtDefer Skipped)]> ts) ps)
| step_post s h b w ts ps u answer :
    (* [err := repl.PostReplicate(s.client, url, req)] and the log line *)
    ts !! i = Some (mkTask u (Some false) AtBranch) →
    task_step i (mkState s h b w ts ps)
      (mkState s h b w
         (<[i := mkTask u (Some false)
                   (AtDefer (outcomeOf (Repl.PostReplicate answer u req)))]> ts)
         (ps ++ [(u, req)]))
| step_done s h b w ts ps u ib o :
    (* [defer wg.Done()] *)
    ts !! i = Some (mkTask u ib (AtDefer o)) →
    task_step i (mkState s h b w ts ps)
      (mkState s h b (w - 1) (<[i := mkTask u ib (Exited o)]> ts) ps).

(** Another request served meanwhile: [handlePartition] changes the
    partition filter, under [s.mu]. *)
Inductive env_step : State → State → Prop :=
| step_partition s h b w ts ps r :
    env_step (mkState s h b w ts ps)
             (mkState (handlePartition s r).2 h b w ts ps).

(** The actions of the program, and all actions. *)
Definition prog_step (x y : State) : Prop :=
  main_step x y ∨ ∃ i, task_step i x y.

Definition step (x y : State) : Prop :=
  prog_step x y ∨ env_step x y.

(** The states a run from [init s] goes through. *)
Definition reachable (s : Server) (x : State) : Prop :=
  rtc step (init s) x.

(** The goroutines that have called [repl.PostReplicate]. *)
Definition hasPosted (t : Task) : bool :=
  match pc t, isBlocked t with
  | (AtDefer _ | Exited _), Some false => true
  | _, _ => false
  end.

Definition hasExited (t : Task) : bool :=
  match pc t with
  | Exited _ => true
  | _ => false
  end.

(** What a goroutine contributes to the wait group's counter: one until its
    [wg.Done()]. *)
Definition pending (t : Task) : nat :=
  if hasExited t then 0 else 1.

(** The program steps a state has ahead of it, at most. *)
Definition taskFuel (t : Task) : nat :=
  match pc t with
  | AtCheck => 3
  | AtBranch => 2
  | AtDefer _ => 1
  | Exited _ => 0
  end.

Definition bcastFuel (b : BroadcastPc) (peers : list string) : nat :=
  match b with
  | NotCalled => 4 * length peers + 3
  | InLoop rest => 4 * length rest + 2
  | AtWait => 1
  | Returned => 0
  end.

Definition handlerFuel (h : HandlerPc) : nat :=
  match h with
  | AtMode => 3
  | InCall => 2
  | AtRespond => 1
  | Responded _ => 0
  end.

Definition fuel (x : State) : nat :=
  handlerFuel (handler x) + bcastFuel (bcast x) (Cluster.Peers (cfg (srv x)))
  + sum_list_with taskFuel (tasks x).

End Broadcast.

End Api.

(* ===================================================================== *)
(** ** internal/api/http.go, the handlers that only read *)
(* ===================================================================== *)

Module ApiRead.

Definition StatusNotFound : Z := 404.

(** [type Status struct], the document of the /status endpoint. *)
Record Status : Type := mkStatus {
  ID : string;
  Role : string;
  Mode : string;
  Port : Z;
  Peers : list string;
  Data : gmap string Store.Entry;
  Blocked : gmap string bool
}.

(** The JSON documents [handleGet] and [handleStatus] write. *)
Inductive Payload : Type :=
| ErrorResponse (Error : string)
| EntryJSON (e : Store.Entry)
| StatusJSON (st : Status).

Record Response : Type := mkResponse {
  Code : Z;
  Written : Payload
}.

(** [respondJSON] and [respondError], for these documents. *)
Definition respondJSON (code : Z) (payload : Payload) : Response :=
  mkResponse code payload.

Definition respondError (code : Z) (message : string) : Response :=
  respondJSON code (ErrorResponse message).

(** [func (s *Server) handleGet(w, r)]; the handler decodes no body and
    leaves the server as it is. *)
Definition handleGet (s : Api.Server) (r : Api.Request unit) : Response :=
  if bool_decide (Api.Method r ≠ Api.MethodGet) then
    respondError Api.StatusMethodNotAllowed "method not allowed"
  else
    let key := Api.QueryGet (Api.Query r) "key" in
    if bool_decide (key = "") then
      respondError Api.StatusBadRequest "missing key query param"
    else
      let '(entry, ok) := Store.Get (Api.store s) key in
      if negb ok then respondError StatusNotFound "key not found"
      else respondJSON Api.StatusOK (EntryJSON entry).

(** [func (s *Server) handleStatus(w, r)]; [blocked] is filled by the loop
    [for k, v := range s.cfg.BlockPeers { blocked[k] = v }], under [s.mu]. *)
Definition handleStatus (s : Api.Server) (r : Api.Request unit) : Response :=
  if bool_decide (Api.Method r ≠ Api.MethodGet) then
    respondError Api.StatusMethodNotAllowed "method not allowed"
  else
    let c := Api.cfg s in
    let blocked :=
      map_fold (fun k v blocked => <[k := v]> blocked) ∅
        (Cluster.BlockPeers c) in
    respondJSON Api.StatusOK
      (StatusJSON
         (mkStatus (Cluster.ID c) (Cluster.Role c) (Cluster.Mode c)
            (Cluster.Port c) (Cluster.Peers c)
            (Store.Snapshot (Api.store s)) blocked)).

End ApiRead.

(* ===================================================================== *)
(** ** cmd/server/main.go *)
(* ===================================================================== *)

Module Main.

Section Main.

Context `{Cluster.NetURL}.

(** The configuration [main] builds from the flags [-id], [-role], [-mode],
    [-port] and [-peers]; the role and the mode are taken as they are
    given. *)
Definition config (id role mode : string) (port : Z) (peers : string)
    : Cluster.NodeConfig :=
  Cluster.mkNodeConfig id role mode port (Cluster.NormalizePeers peers) ∅.

(** The server [main] starts: that configuration and [store.New()]. *)
Definition server (id role mode : string) (port : Z) (peers : string)
    : Api.Server :=
  Api.mkServer (config id role mode port peers) Store.New.

End Main.

End Main.

(* ===================================================================== *)
(** ** The vocabulary of the properties *)
(* ===================================================================== *)

Import Store Cluster.

(** The records offered for key [k] in a sequence of merges, in the order
    they were applied. *)
Definition history (k : string) (l : list Entry) : list Entry :=
  filter (fun e => Key e = k) l.

(** [max(t1..tn)] of a sequence of records; [None] for the empty one. *)
Definition maxTS (h : list Entry) : option Time :=
  match h with
  | [] => None
  | e :: h' => Some (foldl Z.max (TS e) (TS <$> h'))
  end.

(** [w] is the record of [h] that last-write-wins keeps: no record of [h]
    has a greater timestamp and every record applied after [w] has a
    smaller one. *)
Definition lww_winner (h : list Entry) (w : Entry) : Prop :=
  ∃ l1 l2, h = l1 ++ w :: l2
    ∧ (∀ e, e ∈ l1 → TS e ≤ TS w)
    ∧ (∀ e, e ∈ l2 → TS e < TS w).

(** No byte of [s] is a comma. *)
Fixpoint noComma (s : string) : bool :=
  match s with
  | EmptyString => true
  | String c s' => negb (Ascii.eqb c ","%char) && noComma s'
  end.

Section NormalizeSpec.

Context `{NetURL}.

(** The parsed form of an address that carries a scheme and a host;
    [None] for every other address, the bare [host:port] among them. *)
Definition fullURL (p : string) : option URL :=
  match Parse p with
  | Some u =>
      if bool_decide (Scheme u ≠ "") && bool_decide (Host u ≠ "")
      then Some u else None
  | None => None
  end.

(** What the specification asks for one segment of the peer list: a
    segment that is empty or white space is dropped ([None]); an address
    with scheme and host is kept, as [net/url] writes it; any other
    address gets the default scheme in front. *)
Definition normalizeSegment_spec (seg : string) : option string :=
  let p := TrimSpace seg in
  if bool_decide (p = "") then None
  else match fullURL p with
       | Some u => Some (URLString u)
       | None => Some ("http://" +:+ p)
       end.

End NormalizeSpec.

(** The local [isBlocked] of a goroutine and its program point agree: the
    variable is unset before the check, set after it, and a goroutine is
    past its body as [Skipped] exactly when the check found the peer
    blocked. *)
Definition task_ok (t : Api.Task) : Prop :=
  match Api.pc t with
  | Api.AtCheck => Api.isBlocked t = None
  | Api.AtBranch => is_Some (Api.isBlocked t)
  | Api.AtDefer o | Api.Exited o =>
      (Api.isBlocked t = Some true ∧ o = Api.Skipped)
      ∨ (Api.isBlocked t = Some false ∧ o ≠ Api.Skipped)
  end.

(** The goroutines started so far are those of the peers the loop has
    gone through; once [wg.Wait()] has returned, all of them have ended. *)
Definition bcast_ok (s0 : Api.Server) (b : Api.BroadcastPc)
    (ts : list Api.Task) : Prop :=
  match b with
  | Api.NotCalled => ts = []
  | Api.InLoop rest => (Api.url <$> ts) ++ rest = Peers (Api.cfg s0)
  | Api.AtWait =>
      Api.url <$> ts = Peers (Api.cfg s0) ∧ Mode (Api.cfg s0) = Sync
  | Api.Returned =>
      Api.url <$> ts = Peers (Api.cfg s0)
      ∧ (Mode (Api.cfg s0) = Sync → Forall Api.hasExited ts)
  end.

(** Where the handler is relative to the broadcast: outside the
    asynchronous mode it responds only after the broadcast has returned. *)
Definition handler_ok (req : Repl.ReplicateRequest) (s0 : Api.Server)
    (h : Api.HandlerPc) (b : Api.BroadcastPc) : Prop :=
  match h with
  | Api.AtMode => b = Api.NotCalled
  | Api.InCall => b ≠ Api.NotCalled ∧ Mode (Api.cfg s0) ≠ Async
  | Api.AtRespond =>
      b ≠ Api.NotCalled ∧ (Mode (Api.cfg s0) ≠ Async → b = Api.Returned)
  | Api.Responded resp =>
      resp = Api.putOK s0 (Repl.ReqID req)
      ∧ b ≠ Api.NotCalled
      ∧ (Mode (Api.cfg s0) ≠ Async → b = Api.Returned)
  end.

(** What holds in every state of a run of the handler on the server [s0]
    with the replication request [req]. *)
Record invariant (req : Repl.ReplicateRequest) (s0 : Api.Server)
    (x : Api.State) : Prop := mkInvariant {
  inv_peers : Peers (Api.cfg (Api.srv x)) = Peers (Api.cfg s0);
  inv_mode : Mode (Api.cfg (Api.srv x)) = Mode (Api.cfg s0);
  inv_bcast : bcast_ok s0 (Api.bcast x) (Api.tasks x);
  inv_handler : handler_ok req s0 (Api.handler x) (Api.bcast x);
  inv_wg : Api.wg x = Z.of_nat (sum_list_with Api.pending (Api.tasks x));
  inv_tasks : Forall task_ok (Api.tasks x);
  inv_posts :
    Api.posts x
    ≡ₚ (fun t => (Api.url t, req)) <$> filter Api.hasPosted (Api.tasks x)
}.

(** *** A leader, a write and a run, for the examples *)

Definition follower1URL : string := "http://follower1:8081".
Definition follower2URL : string := "http://follower2:8082".

(** A leader in sync mode with two peers, the first one blocked. *)
Definition leader0 : Api.Server :=
  Api.mkServer
    (mkNodeConfig "leader-1" Leader Sync 8080 [follower1URL; follower2URL]
       {[ follower1URL := true ]})
    New.

Definition req0 : Repl.ReplicateRequest :=
  Repl.mkReplicateRequest "weather" "clear" 1000 "req-1".

(** The end of a run in which the first peer is skipped and the second one
    cannot be reached. *)
Definition final0 : Api.State :=
  Api.mkState leader0
    (Api.Responded (Api.putOK leader0 "req-1"))
    Api.Returned 0
    [Api.mkTask follower1URL (Some true) (Api.Exited Api.Skipped);
     Api.mkTask follower2URL (Some false)
       (Api.Exited
          (Api.outcomeOf
             (Repl.PostReplicate (Repl.PostError "connection refused")
                follower2URL req0)))]
    [(follower2URL, req0)].

(** A follower with an empty store. *)
Definition follower0 : Api.Server :=
  Api.mkServer (mkNodeConfig "follower-1" Follower Sync 8081 [] ∅) New.

(** Replication requests whose body decodes: a GET, a PUT and a POST, the
    last two for the empty key and the zero timestamp. *)
Definition replicateGET : Api.Request Repl.ReplicateRequest :=
  Api.mkRequest Api.MethodGet ∅
    (Some (Repl.mkReplicateRequest "city" "Raleigh" 7 "req-1")).

Definition emptyKeyBody : Repl.ReplicateRequest :=
  Repl.mkReplicateRequest "" "v" zeroTime "req-2".

Definition replicatePUT : Api.Request Repl.ReplicateRequest :=
  Api.mkRequest "PUT" ∅ (Some emptyKeyBody).

Definition replicatePOST : Api.Request Repl.ReplicateRequest :=
  Api.mkRequest Api.MethodPost ∅ (Some emptyKeyBody).

(** A write with an empty key. *)
Definition putEmptyKey : Api.Request Api.PutRequest :=
  Api.mkRequest Api.MethodPost ∅ (Some (Api.mkPutRequest "" "v")).

(** [POST /partition?block=...&unblock=...] naming the first peer twice. *)
Definition partitionBoth : Api.Request unit :=
  Api.mkRequest Api.MethodPost
    {[ "block" := [follower1URL]; "unblock" := [follower1URL] ]} None.

(** The merges of the convergence example: four for "city", one for "zip"
    in between, the greatest timestamp offered twice. *)
Definition merges0 : list Entry :=
  [mkEntry "city" "Raleigh" 5; mkEntry "city" "Durham" 9;
   mkEntry "zip" "27601" 11; mkEntry "city" "Cary" 9;
   mkEntry "city" "Apex" 2].

(** What [net/url] answers on the three addresses of the peer-list example:
    "follower1:8081" parses as the scheme "follower1" with no host,
    "127.0.0.1:8083" is an error, and "http://follower2:8082" has scheme
    and host.  The table has no other entry. *)
Definition urlTable : NetURL :=
  mkNetURL (string * string * string)
    (fun p =>
       if bool_decide (p = "follower1:8081")
       then Some ("follower1", "", "follower1:8081")
       else if bool_decide (p = "http://follower2:8082")
       then Some ("http", "follower2:8082", "http://follower2:8082")
       else None)
    (fun u => u.1.1) (fun u => u.1.2) (fun u => u.2).

(* ===================================================================== *)
(** ** More vocabulary: the rest of the code *)
(* ===================================================================== *)

(** What one merge of [e] makes of the entry [o] of its key. *)
Definition merged (o : option Entry) (e : Entry) : option Entry :=
  match o with
  | Some cur => if TS e <? TS cur then Some cur else Some e
  | None => Some e
  end.

(** No two different records of [l] carry the same key and the same
    timestamp. *)
Definition distinct_stamps (l : list Entry) : Prop :=
  ∀ a b, a ∈ l → b ∈ l → Key a = Key b → TS a = TS b → a = b.

(** The partition filter as [handlePartition] keeps it: a peer in the map
    is marked [true], and the empty address is not in it. *)
Definition filter_ok (m : gmap string bool) : Prop :=
  ∀ u b, m !! u = Some b → b = true ∧ u ≠ "".

(** A client write on the leader of the examples, and the reads of its
    key. *)
Definition putWeather : Api.Request Api.PutRequest :=
  Api.mkRequest Api.MethodPost ∅ (Some (Api.mkPutRequest "weather" "clear")).

Definition getWeather : Api.Request unit :=
  Api.mkRequest Api.MethodGet {[ "key" := ["weather"] ]} None.

(** The replicated write that reaches a follower for [req0]. *)
Definition replicateWeather : Api.Request Repl.ReplicateRequest :=
  Api.mkRequest Api.MethodPost ∅ (Some req0).

(** A state in which the write is answered, the broadcast has returned and
    every goroutine has ended. *)
Definition terminal (x : Api.State) : Prop :=
  (∃ resp, Api.handler x = Api.Responded resp)
  ∧ Api.bcast x = Api.Returned
  ∧ Forall Api.hasExited (Api.tasks x).

(** The states of the runs in which no other request is served
    meanwhile. *)
Definition quiet_reachable (req : Repl.ReplicateRequest) (s0 : Api.Server)
    (x : Api.State) : Prop :=
  rtc (Api.prog_step req) (Api.init s0) x.

(** The goroutine of a peer as the loop starts it. *)
Definition started (peerURL : string) : Api.Task :=
  Api.mkTask peerURL None Api.AtCheck.

(** The state in which the write is answered and every goroutine is
    started but none has taken a step. *)
Definition answered_early (req : Repl.ReplicateRequest) (s0 : Api.Server)
    : Api.State :=
  Api.mkState s0 (Api.Responded (Api.putOK s0 (Repl.ReqID req))) Api.Returned
    (Z.of_nat (length (Peers (Api.cfg s0))))
    (started <$> Peers (Api.cfg s0)) [].

(** A leader like [leader0] in async mode. *)
Definition leaderAsync : Api.Server :=
  Api.mkServer
    (mkNodeConfig "leader-1" Leader Async 8080 [follower1URL; follower2URL]
       {[ follower1URL := true ]})
    New.

(** The leader [main] starts for [-peers follower1:8081], and the end of
    its first broadcast when the peer answers 200. *)
Definition leaderMain : Api.Server :=
  @Main.server urlTable "leader-1" "leader" "sync" 8080 "follower1:8081".

Definition finalMain : Api.State :=
  Api.mkState leaderMain
    (Api.Responded (Api.putOK leaderMain "req-1"))
    Api.Returned 0
    [Api.mkTask follower1URL (Some false) (Api.Exited Api.Replicated)]
    [(follower1URL, req0)].

(** A leader like [leader0] with no peer blocked, and the request
    [POST /partition?block=...] that blocks its first peer. *)
Definition leaderOpen : Api.Server :=
  Api.mkServer
    (mkNodeConfig "leader-1" Leader Sync 8080 [follower1URL; follower2URL] ∅)
    New.

Definition partitionBlock1 : Api.Request unit :=
  Api.mkRequest Api.MethodPost {[ "block" := [follower1URL] ]} None.

(* ===================================================================== *)
(** ** The peer list, as it is written *)
(* ===================================================================== *)

(** The white-space bytes of ASCII: tab, line feed, vertical tab, form
    feed, carriage return and space. *)
Definition asciiWhite : list ascii :=
  ["009"; "010"; "011"; "012"; "013"; " "]%char.

Definition bytes (l : list nat) : string :=
  foldr (fun n s => String (ascii_of_nat n) s) EmptyString l.

(** The white-space characters of Unicode in UTF-8, one string each: those
    of ASCII, then U+0085, U+00A0, U+1680, U+2000 to U+200A, U+2028,
    U+2029, U+202F, U+205F and U+3000. *)
Definition whiteRunes : list string :=
  ((fun c => String c EmptyString) <$> asciiWhite)
  ++ (bytes <$>
        [[194; 133]; [194; 160]; [225; 154; 128];
         [226; 128; 128]; [226; 128; 129]; [226; 128; 130]; [226; 128; 131];
         [226; 128; 132]; [226; 128; 133]; [226; 128; 134]; [226; 128; 135];
         [226; 128; 136]; [226; 128; 137]; [226; 128; 138];
         [226; 128; 168]; [226; 128; 169]; [226; 128; 175];
         [226; 129; 159]; [227; 128; 128]]%nat).

(** A string of white space: white-space characters, one after the
    other. *)
Inductive white : string → Prop :=
| white_nil : white EmptyString
| white_cons r s : r ∈ whiteRunes → white s → white (r +:+ s).

(** A byte of ASCII that is no white space. *)
Definition plain (c : ascii) : Prop :=
  (nat_of_ascii c < 128)%nat ∧ c ∉ asciiWhite.

(** A string that begins and ends with such a byte, as an address does. *)
Definition solid (s : string) : Prop :=
  ∃ a, plain a
    ∧ (s = String a EmptyString
       ∨ ∃ m b, plain b ∧ s = String a (m +:+ String b EmptyString)).

(** No byte of [s] is a slash. *)
Fixpoint noSlash (s : string) : bool :=
  match s with
  | EmptyString => true
  | String c s' => negb (Ascii.eqb c "/"%char) && noSlash s'
  end.

(** One segment of a peer list as it is written between two commas: white
    space, an address or nothing, white space. *)
Record Segment : Type := mkSegment {
  lead : string;
  addr : string;
  trail : string
}.

Definition written (g : Segment) : string :=
  lead g +:+ addr g +:+ trail g.

Definition segment_ok (g : Segment) : Prop :=
  white (lead g) ∧ white (trail g) ∧ noComma (addr g) = true
  ∧ (addr g = EmptyString ∨ solid (addr g)).

Section PeersSpec.

Context `{NetURL}.

(** What becomes of a segment: nothing when it holds no address;
    "http://" and the address when the address is bare, with no slash in
    it, as [host:port] is; for any other address what [net/url] makes of
    it, the parsed URL written back when it has scheme and host, and
    "http://" and the address when it has not. *)
Definition normalized (g : Segment) : option string :=
  if bool_decide (addr g = EmptyString) then None
  else if noSlash (addr g) then Some ("http://" +:+ addr g)
  else match fullURL (addr g) with
       | Some u => Some (URLString u)
       | None => Some ("http://" +:+ addr g)
       end.

End PeersSpec.

(** What [net/url] answers on one more address: the scheme of
    "HTTP://follower2:8082" is read as "http" and the URL is written back
    with it. *)
Definition urlAnswers : NetURL :=
  mkNetURL (string * string * string)
    (fun p =>
       if bool_decide (p = "HTTP://follower2:8082")
       then Some ("http", "follower2:8082", "http://follower2:8082")
       else @Parse urlTable p)
    (fun u => u.1.1) (fun u => u.1.2) (fun u => u.2).

(** A peer list with white space around addresses, an empty segment and a
    comma at the end. *)
Definition segments0 : list Segment :=
  [mkSegment " " "follower1:8081" "";
   mkSegment " " "" "";
   mkSegment "" "http://follower2:8082" "";
   mkSegment "" "127.0.0.1:8083" " ";
   mkSegment "" "" ""].

(** [GET /partition?block=...&unblock=...] naming the first peer twice. *)
Definition partitionBothGET : Api.Request unit :=
  Api.mkRequest Api.MethodGet
    {[ "block" := [follower1URL]; "unblock" := [follower1URL] ]} None.

(* ===================================================================== *)
(** ** Theorems: the versioned store *)
(* ===================================================================== *)

Section StoreFacts.

Implicit Types (kv : KV) (e : Entry) (k : string).

Lemma KV_ext kv1 kv2 : data kv1 = data kv2 → kv1 = kv2.
Proof. destruct kv1, kv2; simpl; congruence. Qed.

Lemma Upsert_absent kv e :
  data kv !! Key e = None →
  Upsert kv e = mkKV (<[Key e := e]> (data kv)).
Proof. intros H. unfold Upsert, index. by rewrite H. Qed.

Lemma Upsert_newer kv e cur :
  data kv !! Key e = Some cur → TS cur ≤ TS e →
  Upsert kv e = mkKV (<[Key e := e]> (data kv)).
Proof.
  intros H Hle. unfold Upsert, index, Before. rewrite H. simpl.
  destruct (Z.ltb_spec (TS e) (TS cur)); [lia | done].
Qed.

Lemma Upsert_older kv e cur :
  data kv !! Key e = Some cur → TS e < TS cur →
  Upsert kv e = kv.
Proof.
  intros H Hlt. unfold Upsert, index, Before. rewrite H. simpl.
  destruct (Z.ltb_spec (TS e) (TS cur)); [done | lia].
Qed.

Lemma Upsert_other kv e k :
  k ≠ Key e → data (Upsert kv e) !! k = data kv !! k.
Proof.
  intros Hne. unfold Upsert.
  destruct (index (data kv) (Key e)) as [cur ok].
  destruct (negb ok || negb (Before (TS e) (TS cur))); simpl; [|done].
  by rewrite lookup_insert_ne.
Qed.


Lemma Get_Upsert_other kv e k :
  k ≠ Key e → Get (Upsert kv e) k = Get kv k.
Proof. intros Hne. unfold Get, index. by rewrite Upsert_other. Qed.

(** C1.  Upsert is last-write-wins: the record is stored when its key has
    no entry or its timestamp is not before the entry's (a tie stores the
    incoming record); a record strictly older than the entry leaves the
    store as it is.  Upsert is a total function: it has a result in every
    store and for every record. *)
Theorem Upsert_last_write_wins kv e :
  match data kv !! Key e with
  | None =>
      Upsert kv e = mkKV (<[Key e := e]> (data kv))
      ∧ Get (Upsert kv e) (Key e) = (e, true)
  | Some cur =>
      (TS cur ≤ TS e →
         Upsert kv e = mkKV (<[Key e := e]> (data kv))
         ∧ Get (Upsert kv e) (Key e) = (e, true))
      ∧ (TS e < TS cur →
           Upsert kv e = kv ∧ Get (Upsert kv e) (Key e) = (cur, true))
  end.
Proof.
  destruct (data kv !! Key e) as [cur|] eqn:Hcur.
  - split; intros Hts.
    + rewrite (Upsert_newer kv e cur) by done. split; [done|].
      unfold Get, index. simpl. by rewrite lookup_insert_eq.
    + rewrite (Upsert_older kv e cur) by done. split; [done|].
      unfold Get, index. by rewrite Hcur.
  - rewrite Upsert_absent by done. split; [done|].
    unfold Get, index. simpl. by rewrite lookup_insert_eq.
Qed.

(** C7.  Merging the same record a second time changes nothing. *)
Theorem Upsert_idempotent kv e :
  Upsert (Upsert kv e) e = Upsert kv e.
Proof.
  destruct (data kv !! Key e) as [cur|] eqn:Hcur.
  - destruct (Z.lt_ge_cases (TS e) (TS cur)) as [Hlt|Hge].
    + rewrite !(Upsert_older kv e cur); done.
    + rewrite (Upsert_newer kv e cur) by done.
      rewrite (Upsert_newer _ e e); simpl.
      * by rewrite insert_insert_eq.
      * by rewrite lookup_insert_eq.
      * lia.
  - rewrite (Upsert_absent kv e) by done.
    rewrite (Upsert_newer _ e e); simpl.
    + by rewrite insert_insert_eq.
    + by rewrite lookup_insert_eq.
    + lia.
Qed.

Lemma foldl_max_spec (a : Z) (l : list Z) :
  (a ≤ foldl Z.max a l ∧ ∀ x, x ∈ l → x ≤ foldl Z.max a l)
  ∧ (foldl Z.max a l = a ∨ foldl Z.max a l ∈ l).
Proof.
  revert a. induction l as [|y l IH]; intros a; simpl.
  - split; [split; [lia|] | by left]. intros x Hx. by apply elem_of_nil in Hx.
  - destruct (IH (Z.max a y)) as [[Hle Hall] Hin]. split; [split|].
    + lia.
    + intros x [->|Hx]%elem_of_cons; [lia | by apply Hall].
    + destruct Hin as [Heq|Hin].
      * rewrite Heq. destruct (Z.max_spec a y) as [[_ ->]|[_ ->]].
        -- right. apply elem_of_cons. by left.
        -- by left.
      * right. apply elem_of_cons. by right.
Qed.

Lemma lww_winner_elem h w : lww_winner h w → w ∈ h.
Proof.
  intros (l1 & l2 & -> & _). apply elem_of_app. right.
  apply elem_of_cons. by left.
Qed.

Lemma lww_winner_max h w e : lww_winner h w → e ∈ h → TS e ≤ TS w.
Proof.
  intros (l1 & l2 & -> & H1 & H2) [Hin|[->|Hin]%elem_of_cons]%elem_of_app.
  - by apply H1.
  - lia.
  - apply H2 in Hin. lia.
Qed.

Lemma lww_winner_maxTS h w : lww_winner h w → maxTS h = Some (TS w).
Proof.
  intros Hw. pose proof (lww_winner_elem _ _ Hw) as Hin.
  destruct h as [|e h']; [by apply elem_of_nil in Hin|]. simpl. f_equal.
  destruct (foldl_max_spec (TS e) (TS <$> h')) as [[Hle Hall] Hm].
  apply Z.le_antisymm.
  - destruct Hm as [->|Hm].
    + apply (lww_winner_max _ _ _ Hw). apply elem_of_cons. by left.
    + apply list_elem_of_fmap in Hm as (e' & -> & He').
      apply (lww_winner_max _ _ _ Hw). apply elem_of_cons. by right.
  - apply elem_of_cons in Hin as [->|Hin]; [done|].
    apply Hall. apply list_elem_of_fmap. by exists w.
Qed.

Lemma lww_winner_snoc_newer h w e :
  lww_winner h w → TS w ≤ TS e → lww_winner (h ++ [e]) e.
Proof.
  intros Hw Hle. exists h, []. split; [done|]. split.
  - intros e' He'. pose proof (lww_winner_max _ _ _ Hw He'). lia.
  - intros e' He'. by apply elem_of_nil in He'.
Qed.

Lemma lww_winner_snoc_older h w e :
  lww_winner h w → TS e < TS w → lww_winner (h ++ [e]) w.
Proof.
  intros (l1 & l2 & -> & H1 & H2) Hlt. exists l1, (l2 ++ [e]).
  split; [by rewrite <- app_assoc|]. split; [done|].
  intros e' [He'|He']%elem_of_app; [by apply H2|].
  apply list_elem_of_singleton in He' as ->. done.
Qed.

Lemma history_snoc k l e :
  history k (l ++ [e]) =
  if decide (Key e = k) then history k l ++ [e] else history k l.
Proof.
  unfold history. rewrite filter_app, filter_cons, filter_nil.
  destruct (decide (Key e = k)); [done | by rewrite app_nil_r].
Qed.

(** What a run of merges leaves under a key that had no entry. *)
Lemma foldl_Upsert_lookup kv l k :
  data kv !! k = None →
  match history k l with
  | [] => data (foldl Upsert kv l) !! k = None
  | _ :: _ =>
      ∃ w, data (foldl Upsert kv l) !! k = Some w ∧ lww_winner (history k l) w
  end.
Proof.
  intros Hk. induction l as [|e l IH] using rev_ind; [done|].
  rewrite foldl_app, history_snoc. simpl.
  destruct (decide (Key e = k)) as [<-|Hne].
  - destruct (history (Key e) l) as [|e0 h] eqn:Hh; simpl.
    + exists e. rewrite Upsert_absent by done. simpl.
      rewrite lookup_insert_eq. split; [done|]. exists [], [].
      split; [done|]. split; intros e' He'; by apply elem_of_nil in He'.
    + destruct IH as (w & Hw & Hwin).
      destruct (Z.lt_ge_cases (TS e) (TS w)) as [Hlt|Hge].
      * exists w. rewrite (Upsert_older _ e w) by done. split; [done|].
        by apply (lww_winner_snoc_older (e0 :: h)).
      * exists e. rewrite (Upsert_newer _ e w) by done. simpl.
        rewrite lookup_insert_eq. split; [done|].
        by apply (lww_winner_snoc_newer (e0 :: h) w).
  - rewrite Upsert_other by done. done.
Qed.

(** C2.  Last-write-wins convergence: whatever the order in which records
    are merged into a store where key [k] had no entry (records for other
    keys may come in between), as soon as one of them is for [k] the entry
    of [k] is a record of that sequence with the greatest timestamp
    [max(t1..tn)], namely the one applied last among those with that
    timestamp; its value is the stored value. *)
Theorem Upsert_converges kv (l : list Entry) k :
  data kv !! k = None →
  history k l ≠ [] →
  ∃ w, Get (foldl Upsert kv l) k = (w, true)
    ∧ maxTS (history k l) = Some (TS w)
    ∧ lww_winner (history k l) w.
Proof.
  intros Hk Hne. pose proof (foldl_Upsert_lookup kv l k Hk) as H.
  destruct (history k l) as [|e0 h] eqn:Hh; [done|].
  destruct H as (w & Hw & Hwin). exists w. split; [|split].
  - unfold Get, index. by rewrite Hw.
  - by apply lww_winner_maxTS.
  - done.
Qed.

Lemma Upsert_converges_witness :
  ∃ w, Get (foldl Upsert New merges0) "city" = (w, true)
    ∧ maxTS (history "city" merges0) = Some (TS w)
    ∧ lww_winner (history "city" merges0) w.
Proof.
  apply (Upsert_converges New); [reflexivity | vm_compute; discriminate].
Defined.

(** The second of the two records with the greatest timestamp is kept. *)
Example merges0_run :
  Get (foldl Upsert New merges0) "city" = (mkEntry "city" "Cary" 9, true).
Proof. vm_compute. reflexivity. Qed.

End StoreFacts.

(* ===================================================================== *)
(** ** Theorems: the request handlers *)
(* ===================================================================== *)

Section HandlerFacts.

Implicit Types (s : Api.Server).

Lemma cfg_setBlockPeers s m :
  BlockPeers (Api.cfg (Api.setBlockPeers s m)) = m.
Proof. done. Qed.

Lemma Peers_handlePartition s r :
  Peers (Api.cfg (Api.handlePartition s r).2) = Peers (Api.cfg s).
Proof. unfold Api.handlePartition. by case_bool_decide. Qed.

Lemma Mode_handlePartition s r :
  Mode (Api.cfg (Api.handlePartition s r).2) = Mode (Api.cfg s).
Proof. unfold Api.handlePartition. by case_bool_decide. Qed.

(** C4.  A write sent to a node that is not the leader, or a write whose
    key is empty, is rejected: the response is an error, the server (its
    store and its configuration) is what it was, and nothing is handed to
    the broadcast. *)
Theorem handlePut_rejects s reqID now (r : Api.Request Api.PutRequest) :
  Role (Api.cfg s) ≠ Leader
    ∨ (∃ req, Api.Body r = Some req ∧ Api.Key req = "") →
  ∃ code msg,
    Api.handlePut s reqID now r = (Api.respondError code msg, s, None)
    ∧ code ≠ Api.StatusOK.
Proof.
  intros Hrej. unfold Api.handlePut.
  case_bool_decide as Hm.
  { by exists Api.StatusMethodNotAllowed, "method not allowed". }
  case_bool_decide as Hr.
  { by exists Api.StatusForbidden, "not a leader". }
  destruct Hrej as [Hrole | (req & Hbody & Hkey)]; [done|].
  rewrite Hbody. rewrite bool_decide_true by done.
  by exists Api.StatusBadRequest, "key cannot be empty".
Qed.

Lemma handlePut_rejects_witness :
  ∃ code msg,
    Api.handlePut leader0 "req-1" 42 putEmptyKey
    = (Api.respondError code msg, leader0, None)
    ∧ code ≠ Api.StatusOK.
Proof.
  apply handlePut_rejects. right. eexists. split; reflexivity.
Defined.

(** The entry [handleReplicate] builds from a replication request. *)
Lemma handleReplicate_accepts s (r : Api.Request Repl.ReplicateRequest) req :
  Api.Method r = Api.MethodPost →
  Role (Api.cfg s) ≠ Leader →
  Api.Body r = Some req →
  Api.handleReplicate s r =
    (Api.respondJSON Api.StatusOK
       (Api.ReplicateResponseJSON (Repl.mkReplicateResponse "ok")),
     Api.mkServer (Api.cfg s)
       (Upsert (Api.store s)
          (mkEntry (Repl.Key req) (Repl.Value req) (Repl.TS req)))).
Proof.
  intros Hm Hr Hb. unfold Api.handleReplicate.
  rewrite bool_decide_false by (by intros []).
  rewrite bool_decide_false by done. by rewrite Hb.
Qed.

(** C5, as the code has it.  A POST to a node that is not the leader, with
    a body that decodes, is merged into the store and acknowledged "ok".
    Every other request is rejected, and there are three grounds to reject:
    the method is not POST, the node is the leader, or the body does not
    decode.  A rejection leaves the server unchanged. *)
Theorem handleReplicate_outcomes s (r : Api.Request Repl.ReplicateRequest) :
  (∀ req,
     Api.Method r = Api.MethodPost ∧ Role (Api.cfg s) ≠ Leader
       ∧ Api.Body r = Some req →
     Api.handleReplicate s r =
       (Api.respondJSON Api.StatusOK
          (Api.ReplicateResponseJSON (Repl.mkReplicateResponse "ok")),
        Api.mkServer (Api.cfg s)
          (Upsert (Api.store s)
             (mkEntry (Repl.Key req) (Repl.Value req) (Repl.TS req)))))
  ∧ (Api.Code (Api.handleReplicate s r).1 ≠ Api.StatusOK →
       (Api.handleReplicate s r).2 = s
       ∧ (Api.Method r ≠ Api.MethodPost
          ∨ Role (Api.cfg s) = Leader
          ∨ Api.Body r = None)).
Proof.
  split.
  - intros req (Hm & Hr & Hb). by apply handleReplicate_accepts.
  - unfold Api.handleReplicate.
    case_bool_decide as Hm; [intros _; split; [done | by left]|].
    case_bool_decide as Hr; [intros _; split; [done | right; by left]|].
    destruct (Api.Body r) as [req|]; simpl; [done|].
    intros _. split; [done | right; by right].
Qed.

(** C5 as the specification words it fails: a GET to a follower is
    rejected although its body decodes and the node is no leader. *)
Lemma handleReplicate_rejects_GET :
  Api.Body replicateGET ≠ None
  ∧ Role (Api.cfg follower0) ≠ Leader
  ∧ Api.handleReplicate follower0 replicateGET =
      (Api.respondError Api.StatusMethodNotAllowed "method not allowed",
       follower0).
Proof. split; [done|]. split; [done|]. reflexivity. Qed.

(** C10, as the code has it.  Past the method and role guards,
    [handleReplicate] looks at nothing in a body that decodes: whatever its
    key and timestamp, the record is merged and acknowledged "ok".  A
    record with the empty key thus enters a store that has no such entry. *)
Theorem handleReplicate_unvalidated s (r : Api.Request Repl.ReplicateRequest)
    req :
  Api.Method r = Api.MethodPost →
  Role (Api.cfg s) ≠ Leader →
  Api.Body r = Some req →
  let e := mkEntry (Repl.Key req) (Repl.Value req) (Repl.TS req) in
  Api.handleReplicate s r =
    (Api.respondJSON Api.StatusOK
       (Api.ReplicateResponseJSON (Repl.mkReplicateResponse "ok")),
     Api.mkServer (Api.cfg s) (Upsert (Api.store s) e))
  ∧ (data (Api.store s) !! Repl.Key req = None →
       Get (Api.store (Api.handleReplicate s r).2) (Repl.Key req) = (e, true)).
Proof.
  intros Hm Hr Hb e. rewrite (handleReplicate_accepts s r req) by done.
  split; [done|]. intros Hnone. simpl.
  rewrite (Upsert_absent _ e) by done.
  unfold Get, index. simpl. by rewrite lookup_insert_eq.
Qed.

(** An instance: the empty key and the zero timestamp, into an empty
    store. *)
Lemma handleReplicate_unvalidated_witness :
  Api.handleReplicate follower0 replicatePOST =
    (Api.respondJSON Api.StatusOK
       (Api.ReplicateResponseJSON (Repl.mkReplicateResponse "ok")),
     Api.mkServer (Api.cfg follower0)
       (Upsert (Api.store follower0) (mkEntry "" "v" zeroTime)))
  ∧ (data (Api.store follower0) !! "" = None →
       Get (Api.store (Api.handleReplicate follower0 replicatePOST).2) ""
       = (mkEntry "" "v" zeroTime, true)).
Proof.
  apply (handleReplicate_unvalidated follower0 replicatePOST emptyKeyBody);
    [reflexivity | discriminate | reflexivity].
Defined.

Example follower0_empty_key :
  Get (Api.store (Api.handleReplicate follower0 replicatePOST).2) ""
  = (mkEntry "" "v" zeroTime, true).
Proof. vm_compute. reflexivity. Qed.

(** C10 as worded fails: the handler does check the method, so a body that
    decodes is not merged when it comes with a PUT. *)
Lemma handleReplicate_checks_method :
  Api.Body replicatePUT = Some emptyKeyBody
  ∧ Role (Api.cfg follower0) = Follower
  ∧ Api.handleReplicate follower0 replicatePUT =
      (Api.respondError Api.StatusMethodNotAllowed "method not allowed",
       follower0)
  ∧ Get (Api.store (Api.handleReplicate follower0 replicatePUT).2) ""
    = (zeroEntry, false).
Proof. repeat split; reflexivity. Qed.

(** C9, as the code has it.  A POST to the partition endpoint that carries
    the same peer [p], not the empty string, as [block] and as [unblock]
    first blocks [p] and then unblocks it: [p] is not blocked afterwards,
    blocked before or not. *)
Theorem handlePartition_block_unblock s (r : Api.Request unit) p :
  Api.Method r = Api.MethodPost →
  p ≠ "" →
  Api.QueryGet (Api.Query r) "block" = p →
  Api.QueryGet (Api.Query r) "unblock" = p →
  BlockPeers (Api.cfg (Api.handlePartition s r).2)
    = delete p (<[p := true]> (BlockPeers (Api.cfg s)))
  ∧ BlockPeers (Api.cfg (Api.handlePartition s r).2) !! p = None
  ∧ Api.blocked (Api.handlePartition s r).2 p = false.
Proof.
  intros Hm Hp Hb Hu. unfold Api.blocked, Api.handlePartition.
  rewrite bool_decide_false by (by intros []).
  rewrite Hb, Hu. rewrite !bool_decide_true by done. simpl.
  rewrite lookup_delete_eq. done.
Qed.

Lemma handlePartition_block_unblock_witness :
  BlockPeers (Api.cfg (Api.handlePartition leader0 partitionBoth).2)
    = delete follower1URL
        (<[follower1URL := true]> (BlockPeers (Api.cfg leader0)))
  ∧ BlockPeers (Api.cfg (Api.handlePartition leader0 partitionBoth).2)
      !! follower1URL = None
  ∧ Api.blocked (Api.handlePartition leader0 partitionBoth).2 follower1URL
    = false.
Proof.
  apply (handlePartition_block_unblock leader0 partitionBoth follower1URL);
    [reflexivity | discriminate | reflexivity | reflexivity].
Defined.

End HandlerFacts.

(* ===================================================================== *)
(** ** Theorems: the peer list of the configuration *)
(* ===================================================================== *)

Section NormalizeFacts.

Context `{NetURL}.

Lemma rev_app_nil_inv s1 s2 : String.rev_app s1 s2 = "" → s1 = "" ∧ s2 = "".
Proof.
  revert s2. induction s1 as [|c s1 IH]; intros s2; simpl; [done|].
  intros Heq. by destruct (IH _ Heq).
Qed.

Lemma noComma_rev_app s1 s2 :
  noComma (String.rev_app s1 s2) = noComma s1 && noComma s2.
Proof.
  revert s2. induction s1 as [|c s1 IH]; intros s2; simpl; [done|].
  rewrite IH. simpl. by destruct (Ascii.eqb c ","), (noComma s1).
Qed.

Lemma noComma_rev s : noComma (String.rev s) = noComma s.
Proof. unfold String.rev. rewrite noComma_rev_app. simpl. apply andb_true_r. Qed.

Lemma comma_code c : Ascii.eqb c "," = true → nat_of_ascii c = 44%nat.
Proof. intros ->%Ascii.eqb_eq. reflexivity. Qed.

Lemma isAsciiSpace_no_comma c :
  isAsciiSpace c = true → Ascii.eqb c "," = false.
Proof.
  unfold isAsciiSpace. intros Hsp.
  destruct (Ascii.eqb c ",") eqn:Hc; [|done].
  apply comma_code in Hc. rewrite Hc in Hsp. done.
Qed.

Lemma isSpace2_no_comma c1 c2 :
  isSpace2 c1 c2 = true → Ascii.eqb c1 "," = false ∧ Ascii.eqb c2 "," = false.
Proof.
  unfold isSpace2. intros Hsp. split.
  - destruct (Ascii.eqb c1 ",") eqn:Hc; [|done].
    apply comma_code in Hc. rewrite Hc in Hsp. done.
  - destruct (Ascii.eqb c2 ",") eqn:Hc; [|done].
    apply comma_code in Hc. rewrite Hc in Hsp. simpl in Hsp.
    by rewrite andb_false_r in Hsp.
Qed.

Lemma isSpace3_no_comma c1 c2 c3 :
  isSpace3 c1 c2 c3 = true →
  Ascii.eqb c1 "," = false ∧ Ascii.eqb c2 "," = false
  ∧ Ascii.eqb c3 "," = false.
Proof.
  unfold isSpace3. intros Hsp. repeat split.
  - destruct (Ascii.eqb c1 ",") eqn:Hc; [|done].
    apply comma_code in Hc. rewrite Hc in Hsp. done.
  - destruct (Ascii.eqb c2 ",") eqn:Hc; [|done].
    apply comma_code in Hc. rewrite Hc in Hsp. simpl in Hsp.
    by rewrite !andb_false_r in Hsp.
  - destruct (Ascii.eqb c3 ",") eqn:Hc; [|done].
    apply comma_code in Hc. rewrite Hc in Hsp. simpl in Hsp.
    by rewrite !andb_false_r in Hsp.
Qed.

(** The runes [trimFront] strips hold no comma. *)
Lemma noComma_trimFront back s : noComma (trimFront back s) = noComma s.
Proof.
  assert (∀ n s, (String.length s ≤ n)%nat →
            noComma (trimFront back s) = noComma s) as Hn;
    [|by apply (Hn (String.length s))].
  clear s. induction n as [|n IH]; intros s Hlen.
  { destruct s; [done | simpl in Hlen; lia]. }
  destruct s as [|c1 s1]; [done|]. simpl in Hlen. simpl trimFront.
  destruct (isAsciiSpace c1) eqn:H1.
  { rewrite IH by lia. simpl. by rewrite (isAsciiSpace_no_comma c1). }
  destruct s1 as [|c2 s2]; [done|]. simpl in Hlen.
  destruct (if back then isSpace2 c2 c1 else isSpace2 c1 c2) eqn:H2.
  { rewrite IH by lia. simpl.
    destruct back; apply isSpace2_no_comma in H2 as [-> ->]; done. }
  destruct s2 as [|c3 s3]; [done|]. simpl in Hlen.
  destruct (if back then isSpace3 c3 c2 c1 else isSpace3 c1 c2 c3) eqn:H3;
    [|done].
  rewrite IH by lia. simpl.
  destruct back; apply isSpace3_no_comma in H3 as (-> & -> & ->); done.
Qed.

Lemma noComma_TrimSpace s : noComma (TrimSpace s) = noComma s.
Proof.
  unfold TrimSpace.
  by rewrite noComma_rev, noComma_trimFront, noComma_rev, noComma_trimFront.
Qed.

Lemma Split_noComma s : noComma s = true → Split s = [s].
Proof.
  induction s as [|c s IH]; simpl; [done|].
  destruct (Ascii.eqb c ","); simpl; [done|]. intros Hs. by rewrite IH.
Qed.

(** A blank peer list has one segment, itself. *)
Lemma Split_blank s : TrimSpace s = "" → Split s = [s].
Proof.
  intros Hb. apply Split_noComma. by rewrite <- noComma_TrimSpace, Hb.
Qed.

Lemma normalizeStep_spec out seg :
  normalizeStep out seg = out ++ option_list (normalizeSegment_spec seg).
Proof.
  unfold normalizeStep, normalizeSegment_spec, fullURL.
  case_bool_decide; [by rewrite app_nil_r|].
  destruct (Parse (TrimSpace seg)) as [u|]; [|done].
  by destruct (bool_decide (Scheme u ≠ "") && bool_decide (Host u ≠ "")).
Qed.

Lemma foldl_normalizeStep out segs :
  foldl normalizeStep out segs = out ++ omap normalizeSegment_spec segs.
Proof.
  revert out. induction segs as [|seg segs IH]; intros out; simpl.
  - by rewrite app_nil_r.
  - rewrite IH, normalizeStep_spec, <- app_assoc. f_equal.
    by destruct (normalizeSegment_spec seg).
Qed.

(** The loop as a map.  [NormalizePeers] goes through the comma-separated segments in
    order and gives each the treatment of [normalizeSegment_spec]: blank
    segments are dropped, an address with scheme and host is kept (as
    [net/url] writes it), and any other address, the bare [host:port], comes
    out with "http://" in front.  So a list that is one bare address [p]
    yields ["http://" + p]. *)
Theorem NormalizePeers_segments (peersCSV : string) :
  NormalizePeers peersCSV = omap normalizeSegment_spec (Split peersCSV)
  ∧ (∀ p, TrimSpace peersCSV = p → p ≠ "" → noComma p = true →
       NormalizePeers peersCSV =
         [match fullURL p with
          | Some u => URLString u
          | None => "http://" +:+ p
          end]).
Proof.
  assert (NormalizePeers peersCSV
          = omap normalizeSegment_spec (Split peersCSV)) as Heq.
  { unfold NormalizePeers. case_bool_decide as Hb.
    - rewrite Split_blank by done. simpl.
      unfold normalizeSegment_spec. by rewrite Hb.
    - by rewrite foldl_normalizeStep. }
  split; [done|]. intros p Hp Hne Hc. rewrite Heq.
  rewrite Split_noComma by (by rewrite <- noComma_TrimSpace, Hp).
  simpl. unfold normalizeSegment_spec. rewrite Hp.
  rewrite bool_decide_false by done. by destruct (fullURL p).
Qed.

End NormalizeFacts.

(** A peer list as a leader gets it: surrounding white space, an empty
    segment, two bare addresses and a full one. *)
Example urlTable_run :
  @NormalizePeers urlTable
    " follower1:8081, ,http://follower2:8082,127.0.0.1:8083 ,"
  = ["http://follower1:8081"; "http://follower2:8082";
     "http://127.0.0.1:8083"].
Proof. vm_compute. reflexivity. Qed.

(* ===================================================================== *)
(** ** Theorems: the replication broadcaster *)
(* ===================================================================== *)

Section BroadcastFacts.

Variable req : Repl.ReplicateRequest.

Implicit Types (x y : Api.State) (t : Api.Task) (ts : list Api.Task).

(** *** Replacing one goroutine in the list *)

Lemma insert_middle {A} (l : list A) i a b :
  l !! i = Some a →
  ∃ l1 l2, l = l1 ++ a :: l2 ∧ <[i := b]> l = l1 ++ b :: l2.
Proof.
  intros Hi. exists (take i l), (drop (S i) l). split.
  - by rewrite take_drop_middle.
  - apply insert_take_drop. by eapply lookup_lt_Some.
Qed.

Lemma url_insert ts i t t' :
  ts !! i = Some t → Api.url t' = Api.url t →
  Api.url <$> <[i := t']> ts = Api.url <$> ts.
Proof.
  intros Hi Hu. destruct (insert_middle ts i t t' Hi) as (l1 & l2 & -> & ->).
  rewrite !fmap_app, !fmap_cons. by rewrite Hu.
Qed.

Lemma sum_insert (f : Api.Task → nat) ts i t t' :
  ts !! i = Some t →
  (sum_list_with f (<[i := t']> ts) + f t = sum_list_with f ts + f t')%nat.
Proof.
  intros Hi. destruct (insert_middle ts i t t' Hi) as (l1 & l2 & -> & ->).
  rewrite !sum_list_with_app. simpl. lia.
Qed.

Lemma posted_insert_same ts i t t' :
  ts !! i = Some t → Api.url t' = Api.url t →
  Api.hasPosted t' = Api.hasPosted t →
  (fun t => (Api.url t, req)) <$> filter Api.hasPosted (<[i := t']> ts)
  = (fun t => (Api.url t, req)) <$> filter Api.hasPosted ts.
Proof.
  intros Hi Hu Hp. destruct (insert_middle ts i t t' Hi) as (l1 & l2 & -> & ->).
  rewrite !filter_app, !filter_cons, Hp.
  destruct (decide (Api.hasPosted t)); rewrite !fmap_app; [|done].
  rewrite !fmap_cons. by rewrite Hu.
Qed.

Lemma posted_insert_new ts i t t' :
  ts !! i = Some t → Api.hasPosted t = false → Api.hasPosted t' = true →
  (fun t => (Api.url t, req)) <$> filter Api.hasPosted (<[i := t']> ts)
  ≡ₚ ((fun t => (Api.url t, req)) <$> filter Api.hasPosted ts)
     ++ [(Api.url t', req)].
Proof.
  intros Hi Hp Hp'. destruct (insert_middle ts i t t' Hi) as (l1 & l2 & -> & ->).
  rewrite !filter_app, !filter_cons, Hp, Hp'.
  rewrite decide_True by done. rewrite decide_False by (by intros []).
  rewrite !fmap_app, fmap_cons.
  rewrite <- app_assoc. apply Permutation_app_head.
  by rewrite Permutation_app_comm.
Qed.

Lemma pending_zero ts :
  sum_list_with Api.pending ts = 0%nat → Forall Api.hasExited ts.
Proof.
  induction ts as [|t ts IH]; simpl; [by constructor|].
  unfold Api.pending at 1. destruct (Api.hasExited t) eqn:Ht; [|lia].
  intros Hs. constructor; [by rewrite Ht | by apply IH].
Qed.

Lemma pending_pos ts :
  sum_list_with Api.pending ts ≠ 0%nat →
  ∃ i t, ts !! i = Some t ∧ Api.hasExited t = false.
Proof.
  induction ts as [|t ts IH]; simpl; [done|].
  destruct (Api.hasExited t) eqn:Ht.
  - unfold Api.pending at 1. rewrite Ht. simpl. intros Hs.
    destruct (IH Hs) as (i & t' & Hi & Ht'). by exists (S i), t'.
  - intros _. by exists 0%nat, t.
Qed.

Lemma putOK_mode s s' reqID :
  Mode (Api.cfg s) = Mode (Api.cfg s') → Api.putOK s reqID = Api.putOK s' reqID.
Proof. unfold Api.putOK. by intros ->. Qed.

(** *** The invariant holds along every run *)

Lemma invariant_init s0 : invariant req s0 (Api.init s0).
Proof. by constructor. Qed.

Lemma handler_ok_move s0 h b b' :
  handler_ok req s0 h b →
  b ≠ Api.NotCalled → b' ≠ Api.NotCalled →
  (b = Api.Returned → b' = Api.Returned) →
  handler_ok req s0 h b'.
Proof.
  intros Hh Hb Hb' Hret. destruct h; simpl in *.
  - done.
  - by destruct Hh.
  - destruct Hh as [_ Hh]. split; [done|]. intros Hm. by apply Hret, Hh.
  - destruct Hh as (? & _ & Hh). split; [done|]. split; [done|].
    intros Hm. by apply Hret, Hh.
Qed.

Lemma invariant_main_step s0 x y :
  invariant req s0 x → Api.main_step req x y → invariant req s0 y.
Proof.
  intros [Hpeers Hmode Hb Hh Hwg Hts Hps] Hstep.
  destruct Hstep; simpl in *.
  - (* go broadcast *)
    constructor; simpl; try done.
    + by rewrite Hb, Hpeers.
    + split; [done|]. intros Hm. by rewrite <- Hmode in Hm.
  - (* call broadcast *)
    constructor; simpl; try done.
    + by rewrite Hb, Hpeers.
    + split; [done|]. by rewrite <- Hmode.
  - (* spawn *)
    constructor; simpl; try done.
    + by rewrite fmap_app, <- app_assoc.
    + by apply (handler_ok_move s0 h (Api.InLoop (peerURL :: rest))).
    + rewrite sum_list_with_app. cbn. lia.
    + apply Forall_app. split; [done|]. by repeat constructor.
    + rewrite filter_app, fmap_app. simpl. by rewrite app_nil_r.
  - (* end of the loop, sync *)
    constructor; simpl; try done.
    + rewrite app_nil_r in Hb. by rewrite <- Hmode.
    + by apply (handler_ok_move s0 h (Api.InLoop [])).
  - (* end of the loop, no wait *)
    constructor; simpl; try done.
    + rewrite app_nil_r in Hb. split; [done|]. intros Hm.
      by rewrite <- Hmode in Hm.
    + by apply (handler_ok_move s0 h (Api.InLoop [])).
  - (* wait *)
    constructor; simpl; try done.
    + destruct Hb as [Hb Hm]. split; [done|]. intros _.
      apply pending_zero. lia.
    + by apply (handler_ok_move s0 h Api.AtWait).
  - (* return *)
    constructor; simpl; done.
  - (* respond *)
    constructor; simpl; try done.
    destruct Hh as [? ?]. split; [|done]. by apply putOK_mode.
Qed.

Lemma bcast_ok_task s0 b ts ts' :
  bcast_ok s0 b ts →
  Api.url <$> ts' = Api.url <$> ts →
  (Forall Api.hasExited ts → Forall Api.hasExited ts') →
  bcast_ok s0 b ts'.
Proof.
  intros Hb Hu Hex. destruct b; simpl in *.
  - rewrite Hb in Hu. by apply fmap_nil_inv in Hu.
  - by rewrite Hu.
  - by rewrite Hu.
  - rewrite Hu. destruct Hb as [? Hb]. split; [done|]. intros Hm.
    apply Hex, Hb, Hm.
Qed.

Lemma exited_insert ts i t t' :
  ts !! i = Some t → Api.hasExited t = false →
  Forall Api.hasExited ts → Forall Api.hasExited (<[i := t']> ts).
Proof.
  intros Hi Ht Hall. exfalso.
  pose proof (Forall_lookup_1 _ _ _ _ Hall Hi) as Hex. simpl in Hex.
  by rewrite Ht in Hex.
Qed.

Lemma invariant_task_step s0 i x y :
  invariant req s0 x → Api.task_step req i x y → invariant req s0 y.
Proof.
  intros Hinv Hstep.
  pose proof Hinv as [Hpeers Hmode Hb Hh Hwg Hts Hps].
  destruct Hstep as [s h b w ts ps u Hi | s h b w ts ps u Hi
                    | s h b w ts ps u answer Hi | s h b w ts ps u ib o Hi];
    simpl in *.
  - constructor; simpl; try done.
    + apply (bcast_ok_task s0 b ts); [done| |].
      * by apply (url_insert _ _ _ _ Hi).
      * by apply (exited_insert _ _ _ _ Hi).
    + pose proof (sum_insert Api.pending _ _ _
        (Api.mkTask u (Some (Api.blocked s u)) Api.AtBranch) Hi) as Hs.
      unfold Api.pending at 2 4 in Hs. simpl in Hs. lia.
    + apply Forall_insert; [done|]. by eexists.
    + by rewrite (posted_insert_same _ _ _ _ Hi).
  - constructor; simpl; try done.
    + apply (bcast_ok_task s0 b ts); [done| |].
      * by apply (url_insert _ _ _ _ Hi).
      * by apply (exited_insert _ _ _ _ Hi).
    + pose proof (sum_insert Api.pending _ _ _
        (Api.mkTask u (Some true) (Api.AtDefer Api.Skipped)) Hi) as Hs.
      unfold Api.pending at 2 4 in Hs. simpl in Hs. lia.
    + apply Forall_insert; [done|]. by left.
    + by rewrite (posted_insert_same _ _ _ _ Hi).
  - constructor; simpl; try done.
    + apply (bcast_ok_task s0 b ts); [done| |].
      * by apply (url_insert _ _ _ _ Hi).
      * by apply (exited_insert _ _ _ _ Hi).
    + pose proof (sum_insert Api.pending _ _ _
        (Api.mkTask u (Some false)
           (Api.AtDefer (Api.outcomeOf (Repl.PostReplicate answer u req))))
        Hi) as Hs.
      unfold Api.pending at 2 4 in Hs. simpl in Hs. lia.
    + apply Forall_insert; [done|]. right. split; [done|].
      by destruct (Repl.PostReplicate answer u req).
    + rewrite (posted_insert_new _ _ _ _ Hi) by done. simpl.
      by apply Permutation_app_tail.
  - constructor; simpl; try done.
    + apply (bcast_ok_task s0 b ts); [done| |].
      * by apply (url_insert _ _ _ _ Hi).
      * by apply (exited_insert _ _ _ _ Hi).
    + pose proof (sum_insert Api.pending _ _ _
        (Api.mkTask u ib (Api.Exited o)) Hi) as Hs.
      unfold Api.pending at 2 4 in Hs. simpl in Hs. lia.
    + apply Forall_insert; [done|].
      apply (Forall_lookup_1 _ _ _ _ Hts Hi).
    + by rewrite (posted_insert_same _ _ _ _ Hi).
Qed.

Lemma invariant_env_step s0 x y :
  invariant req s0 x → Api.env_step x y → invariant req s0 y.
Proof.
  intros [Hpeers Hmode Hb Hh Hwg Hts Hps] Hstep.
  destruct Hstep; simpl in *. constructor; simpl; try done.
  - by rewrite Peers_handlePartition.
  - by rewrite Mode_handlePartition.
Qed.

Lemma invariant_step s0 x y :
  invariant req s0 x → Api.step req x y → invariant req s0 y.
Proof.
  intros Hinv [[Hm | [i Ht]] | He].
  - by eapply invariant_main_step.
  - by eapply invariant_task_step.
  - by eapply invariant_env_step.
Qed.

Lemma invariant_reachable s0 x :
  Api.reachable req s0 x → invariant req s0 x.
Proof.
  unfold Api.reachable. revert x.
  apply (rtc_ind_r (invariant req s0) (Api.init s0)).
  - apply invariant_init.
  - intros x y _ Hstep Hx. by eapply invariant_step.
Qed.

(** *** Progress and termination *)

Lemma task_can_step s h b w ts ps i t :
  ts !! i = Some t → task_ok t → Api.hasExited t = false →
  ∃ y, Api.task_step req i (Api.mkState s h b w ts ps) y.
Proof.
  intros Hi Hok Hex. destruct t as [u ib p]. unfold task_ok in Hok.
  destruct p as [| |o|o]; simpl in *.
  - subst ib. eexists. by apply Api.step_check.
  - destruct Hok as [[|] ->].
    + eexists. by apply Api.step_skip.
    + eexists. by apply (Api.step_post req i s h b w ts ps u
                       (Repl.PostStatus 200 "200 OK")).
  - eexists. by eapply Api.step_done.
  - done.
Qed.



Lemma main_step_fuel x y : Api.main_step req x y → (Api.fuel y < Api.fuel x)%nat.
Proof.
  intros Hstep. destruct Hstep; unfold Api.fuel; simpl;
    rewrite ?sum_list_with_app; simpl; lia.
Qed.

Lemma task_step_fuel i x y :
  Api.task_step req i x y → (Api.fuel y < Api.fuel x)%nat.
Proof.
  intros Hstep.
  destruct Hstep as [s h b w ts ps u Hi | s h b w ts ps u Hi
                    | s h b w ts ps u answer Hi | s h b w ts ps u ib o Hi];
    unfold Api.fuel; simpl.
  - pose proof (sum_insert Api.taskFuel _ _ _
      (Api.mkTask u (Some (Api.blocked s u)) Api.AtBranch) Hi) as Hs.
    unfold Api.taskFuel at 2 4 in Hs. simpl in Hs. lia.
  - pose proof (sum_insert Api.taskFuel _ _ _
      (Api.mkTask u (Some true) (Api.AtDefer Api.Skipped)) Hi) as Hs.
    unfold Api.taskFuel at 2 4 in Hs. simpl in Hs. lia.
  - pose proof (sum_insert Api.taskFuel _ _ _
      (Api.mkTask u (Some false)
         (Api.AtDefer (Api.outcomeOf (Repl.PostReplicate answer u req))))
      Hi) as Hs.
    unfold Api.taskFuel at 2 4 in Hs. simpl in Hs. lia.
  - pose proof (sum_insert Api.taskFuel _ _ _
      (Api.mkTask u ib (Api.Exited o)) Hi) as Hs.
    unfold Api.taskFuel at 2 4 in Hs. simpl in Hs. lia.
Qed.

Lemma prog_step_fuel x y : Api.prog_step req x y → (Api.fuel y < Api.fuel x)%nat.
Proof.
  intros [Hm | [i Ht]]; [by apply main_step_fuel | by eapply task_step_fuel].
Qed.

Lemma exited_outcome ts :
  Forall Api.hasExited ts → Forall (fun t => ∃ o, Api.pc t = Api.Exited o) ts.
Proof.
  intros Hall. eapply Forall_impl; [exact Hall|].
  intros [u ib p] Hex. unfold Api.hasExited in Hex.
  simpl in *. destruct p; try done. by eexists.
Qed.



Lemma filter_posted_exited ts :
  Forall task_ok ts → Forall Api.hasExited ts →
  filter Api.hasPosted ts
  = filter (fun t => Api.isBlocked t = Some false) ts.
Proof.
  induction 1 as [|t ts Hok _ IH]; [done|].
  intros [Hex Hall]%Forall_cons. rewrite !filter_cons, IH by done.
  destruct t as [u ib p]. unfold task_ok, Api.hasExited, Api.hasPosted in *.
  simpl in *. destruct p as [| |o|o]; try done.
  destruct Hok as [[-> _]|[-> _]].
  - rewrite decide_False by (by intros []). by rewrite decide_False.
  - rewrite decide_True by done. by rewrite decide_True.
Qed.

Lemma check_reads_filter i x y t t' b :
  Api.task_step req i x y →
  Api.tasks x !! i = Some t → Api.tasks y !! i = Some t' →
  Api.isBlocked t = None → Api.isBlocked t' = Some b →
  b = Api.blocked (Api.srv x) (Api.url t).
Proof.
  intros Hstep Ht Ht' Hnone Hsome.
  destruct Hstep as [s h bc w ts ps u Hi | s h bc w ts ps u Hi
                    | s h bc w ts ps u answer Hi | s h bc w ts ps u ib o Hi];
    simpl in *; rewrite Hi in Ht; injection Ht as <-; simpl in *;
    try done;
    rewrite list_lookup_insert_eq in Ht' by (by eapply lookup_lt_Some);
    injection Ht' as <-; simpl in *; congruence.
Qed.



(** *** A run: one peer skipped, the other unreachable *)

Lemma run_final0 : Api.reachable req0 leader0 final0.
Proof.
  unfold Api.reachable, Api.init.
  eapply rtc_l. { left. left. by apply Api.step_call_broadcast. }
  eapply rtc_l. { left. left. apply Api.step_spawn. }
  eapply rtc_l. { left. left. apply Api.step_spawn. }
  eapply rtc_l. { left. left. by apply Api.step_loop_end_sync. }
  eapply rtc_l. { left. right. exists 0%nat. by eapply Api.step_check. }
  eapply rtc_l. { left. right. exists 1%nat. by eapply Api.step_check. }
  eapply rtc_l. { left. right. exists 0%nat. by eapply Api.step_skip. }
  eapply rtc_l.
  { left. right. exists 1%nat.
    by eapply (Api.step_post _ _ _ _ _ _ _ _ _
                 (Repl.PostError "connection refused")). }
  eapply rtc_l. { left. right. exists 0%nat. by eapply Api.step_done. }
  eapply rtc_l. { left. right. exists 1%nat. by eapply Api.step_done. }
  eapply rtc_l. { left. left. apply Api.step_wait. }
  eapply rtc_l. { left. left. apply Api.step_return. }
  eapply rtc_l. { left. left. apply Api.step_respond. }
  apply rtc_refl.
Qed.

End BroadcastFacts.



(* ===================================================================== *)
(** ** More theorems: the versioned store *)
(* ===================================================================== *)

Section StoreMore.

Implicit Types (kv : KV) (e : Entry) (k : string) (l : list Entry).

Lemma lookup_Upsert kv e k :
  data (Upsert kv e) !! k =
  if decide (k = Key e) then merged (data kv !! k) e else data kv !! k.
Proof.
  destruct (decide (k = Key e)) as [->|Hne]; [|by apply Upsert_other].
  unfold merged. destruct (data kv !! Key e) as [cur|] eqn:Hcur.
  - destruct (Z.ltb_spec (TS e) (TS cur)).
    + by rewrite (Upsert_older kv e cur).
    + rewrite (Upsert_newer kv e cur) by done. simpl. apply lookup_insert_eq.
  - rewrite Upsert_absent by done. simpl. apply lookup_insert_eq.
Qed.

(** X1.  A merge touches the entry of its own key only, and it removes no key:
    the key of the record has an entry afterwards and so has every key
    that had one. *)
Theorem Upsert_frame kv e :
  (∀ k, k ≠ Key e → Get (Upsert kv e) k = Get kv k)
  ∧ is_Some (data (Upsert kv e) !! Key e)
  ∧ (∀ k, is_Some (data kv !! k) → is_Some (data (Upsert kv e) !! k)).
Proof.
  split; [|split].
  - intros k Hne. unfold Get, index. by rewrite Upsert_other.
  - rewrite lookup_Upsert, decide_True by done. unfold merged.
    destruct (data kv !! Key e) as [cur|]; [|by eexists].
    destruct (TS e <? TS cur); by eexists.
  - intros k [cur Hcur]. rewrite lookup_Upsert, Hcur. unfold merged.
    destruct (decide (k = Key e)); [|by eexists].
    destruct (TS e <? TS cur); by eexists.
Qed.

Lemma Upsert_mono kv e k cur :
  data kv !! k = Some cur →
  ∃ cur', data (Upsert kv e) !! k = Some cur' ∧ TS cur ≤ TS cur'.
Proof.
  intros Hcur. rewrite lookup_Upsert, Hcur. unfold merged.
  destruct (decide (k = Key e)); [|exists cur; split; [done | lia]].
  destruct (Z.ltb_spec (TS e) (TS cur)).
  - exists cur. split; [done | lia].
  - exists e. split; [done | lia].
Qed.

Lemma foldl_Upsert_mono l kv k cur :
  data kv !! k = Some cur →
  ∃ cur', data (foldl Upsert kv l) !! k = Some cur' ∧ TS cur ≤ TS cur'.
Proof.
  revert kv cur. induction l as [|e l IH]; intros kv cur Hcur; simpl.
  - exists cur. split; [done | lia].
  - destruct (Upsert_mono kv e k cur Hcur) as (c1 & Hc1 & Hle1).
    destruct (IH _ _ Hc1) as (c2 & Hc2 & Hle2).
    exists c2. split; [done | lia].
Qed.

Lemma Upsert_dominates kv e :
  ∃ w, data (Upsert kv e) !! Key e = Some w ∧ TS e ≤ TS w.
Proof.
  rewrite lookup_Upsert, decide_True by done. unfold merged.
  destruct (data kv !! Key e) as [cur|]; [|exists e; split; [done | lia]].
  destruct (Z.ltb_spec (TS e) (TS cur)).
  - exists cur. split; [done | lia].
  - exists e. split; [done | lia].
Qed.

(** X2.  Last-write-wins dominance, from any store: after a sequence of merges
    the key of every record of the sequence has an entry, and its
    timestamp is not before the record's; an entry the store had before
    is still there or has given way to one that is not older. *)
Theorem Upsert_dominance kv l :
  (∀ e, e ∈ l →
     ∃ w, Get (foldl Upsert kv l) (Key e) = (w, true) ∧ TS e ≤ TS w)
  ∧ (∀ k cur, Get kv k = (cur, true) →
       ∃ w, Get (foldl Upsert kv l) k = (w, true) ∧ TS cur ≤ TS w).
Proof.
  split.
  - revert kv. induction l as [|e0 l IH]; intros kv e He.
    { by apply elem_of_nil in He. }
    simpl. apply elem_of_cons in He as [->|He]; [|by apply IH].
    destruct (Upsert_dominates kv e0) as (w0 & Hw0 & Hle0).
    destruct (foldl_Upsert_mono l _ _ _ Hw0) as (w & Hw & Hle).
    exists w. unfold Get, index. rewrite Hw. split; [done | lia].
  - intros k cur. unfold Get, index.
    destruct (data kv !! k) as [c|] eqn:Hc; [|done].
    intros [= ->]. destruct (foldl_Upsert_mono l _ _ _ Hc) as (w & Hw & Hle).
    exists w. by rewrite Hw.
Qed.

Lemma foldl_Upsert_origin l kv k e :
  data (foldl Upsert kv l) !! k = Some e →
  data kv !! k = Some e ∨ (Key e = k ∧ e ∈ l).
Proof.
  revert kv. induction l as [|e0 l IH]; intros kv; simpl; [by left|].
  intros Hfin. destruct (IH _ Hfin) as [Hup|[Hk Hin]].
  - rewrite lookup_Upsert in Hup. destruct (decide (k = Key e0)) as [->|];
      [|by left].
    unfold merged in Hup. destruct (data kv !! Key e0) as [cur|].
    + destruct (TS e0 <? TS cur); injection Hup as <-; [by left|].
      right. split; [done|]. apply elem_of_cons. by left.
    + injection Hup as <-. right. split; [done|]. apply elem_of_cons. by left.
  - right. split; [done|]. apply elem_of_cons. by right.
Qed.

(** X3.  A store that began empty holds nothing but records that were merged
    into it, each under its own key; and a key has an entry exactly when a
    record for it was merged. *)
Theorem Upsert_provenance l k :
  (∀ e, Get (foldl Upsert New l) k = (e, true) → Key e = k ∧ e ∈ l)
  ∧ ((Get (foldl Upsert New l) k).2 = true ↔ history k l ≠ []).
Proof.
  split.
  - intros e. unfold Get, index.
    destruct (data (foldl Upsert New l) !! k) as [w|] eqn:Hw; [|done].
    intros [= ->]. by destruct (foldl_Upsert_origin l New k e Hw).
  - pose proof (foldl_Upsert_lookup New l k) as H. unfold Get, index.
    destruct (history k l) as [|e0 h] eqn:Hh.
    + rewrite H by done. simpl. split; done.
    + destruct H as (w & -> & _); [done|]. simpl. split; done.
Qed.

(** X4.  [Snapshot] returns the entries of the store, all of them and no
    other. *)
Theorem Snapshot_data kv : Snapshot kv = data kv.
Proof.
  unfold Snapshot.
  apply (map_fold_weak_ind (fun (r : gmap string Entry) m => r = m)); [done|].
  intros i x m r _ ->. done.
Qed.

Lemma merged_comm (o : option Entry) a b :
  (TS a = TS b → a = b) → merged (merged o a) b = merged (merged o b) a.
Proof.
  intros Hab. unfold merged. destruct o as [cur|].
  - destruct (Z.ltb_spec (TS a) (TS cur)), (Z.ltb_spec (TS b) (TS cur));
      repeat match goal with
             | |- context [(?x <? ?y)] => destruct (Z.ltb_spec x y)
             end; try done; try lia.
    f_equal. symmetry. apply Hab. lia.
  - destruct (Z.ltb_spec (TS b) (TS a)), (Z.ltb_spec (TS a) (TS b));
      try done; try lia.
    f_equal. symmetry. apply Hab. lia.
Qed.

(** X5.  Two merges commute unless the records carry the same key and the same
    timestamp and differ: the order in which they reach a store does not
    show. *)
Theorem Upsert_comm kv a b :
  (Key a = Key b → TS a = TS b → a = b) →
  Upsert (Upsert kv a) b = Upsert (Upsert kv b) a.
Proof.
  intros Hab. apply KV_ext, map_eq. intros k. rewrite !lookup_Upsert.
  destruct (decide (k = Key b)) as [Hb|Hb], (decide (k = Key a)) as [Ha|Ha];
    try done.
  apply merged_comm. apply Hab. congruence.
Qed.

Lemma Upsert_comm_witness :
  Upsert (Upsert New (mkEntry "city" "Raleigh" 5)) (mkEntry "city" "Cary" 9)
  = Upsert (Upsert New (mkEntry "city" "Cary" 9)) (mkEntry "city" "Raleigh" 5).
Proof. apply Upsert_comm. intros _ Hts. discriminate Hts. Defined.

Lemma distinct_stamps_perm l l' :
  l ≡ₚ l' → distinct_stamps l → distinct_stamps l'.
Proof.
  intros Hp Hd a b Ha Hb. apply Hd; by rewrite Hp.
Qed.

(** X6.  Replicas converge: two stores in the same state that receive the same
    records in different orders end in the same state, as long as no two
    different records carry the same key and timestamp. *)
Theorem Upsert_order_irrelevant kv l l' :
  l ≡ₚ l' → distinct_stamps l →
  foldl Upsert kv l = foldl Upsert kv l'.
Proof.
  intros Hp. revert kv. induction Hp as [|x l l' Hp IH|x y l|l l' l'' Hp1 IH1 Hp2 IH2];
    intros kv Hd; simpl.
  - done.
  - apply IH. intros a b Ha Hb. apply Hd; apply elem_of_cons; by right.
  - f_equal. apply KV_ext, map_eq. intros k. rewrite !lookup_Upsert.
    destruct (decide (k = Key x)) as [Hx|Hx], (decide (k = Key y)) as [Hy|Hy];
      try done.
    apply merged_comm. intros Hts. apply Hd; [| |congruence|done].
    + apply elem_of_cons. by left.
    + apply elem_of_cons. right. apply elem_of_cons. by left.
  - rewrite IH1 by done. apply IH2. by eapply distinct_stamps_perm.
Qed.

Lemma Upsert_order_irrelevant_witness :
  foldl Upsert New [mkEntry "city" "Raleigh" 5; mkEntry "city" "Cary" 9;
                    mkEntry "zip" "27601" 5]
  = foldl Upsert New [mkEntry "city" "Cary" 9; mkEntry "city" "Raleigh" 5;
                      mkEntry "zip" "27601" 5].
Proof.
  apply Upsert_order_irrelevant.
  - apply perm_swap.
  - intros a b Ha Hb.
    repeat (apply elem_of_cons in Ha as [->|Ha]);
      try (by apply elem_of_nil in Ha);
      repeat (apply elem_of_cons in Hb as [->|Hb]);
      try (by apply elem_of_nil in Hb); simpl; done.
Defined.

End StoreMore.

(* ===================================================================== *)
(** ** More theorems: the request handlers *)
(* ===================================================================== *)

Section HandlersMore.

Implicit Types (s f : Api.Server).

Lemma map_fold_copy {A} (m : gmap string A) :
  map_fold (fun k v copy => <[k := v]> copy) ∅ m = m.
Proof.
  apply (map_fold_weak_ind (fun (r : gmap string A) m => r = m)); [done|].
  intros i x m' r _ ->. done.
Qed.

(** The four guards of [handlePut], passed. *)
Lemma handlePut_accepts s reqID now (r : Api.Request Api.PutRequest) req :
  Api.Method r = Api.MethodPost → Role (Api.cfg s) = Leader →
  Api.Body r = Some req → Api.Key req ≠ "" →
  Api.handlePut s reqID now r =
    (Api.putOK s reqID,
     Api.mkServer (Api.cfg s)
       (Upsert (Api.store s) (mkEntry (Api.Key req) (Api.Value req) now)),
     Some (Repl.mkReplicateRequest (Api.Key req) (Api.Value req) now reqID)).
Proof.
  intros Hm Hr Hb Hk. unfold Api.handlePut.
  rewrite bool_decide_false by (by intros []).
  rewrite bool_decide_false by (by intros []).
  rewrite Hb. by rewrite bool_decide_false.
Qed.

(** What [handlePut] hands to the broadcast tells what it did. *)
Lemma handlePut_inv s reqID now (r : Api.Request Api.PutRequest) resp s' q :
  Api.handlePut s reqID now r = (resp, s', Some q) →
  Role (Api.cfg s) = Leader
  ∧ Repl.Key q ≠ ""
  ∧ Repl.TS q = now
  ∧ Repl.ReqID q = reqID
  ∧ resp = Api.putOK s reqID
  ∧ s' = Api.mkServer (Api.cfg s)
           (Upsert (Api.store s)
              (mkEntry (Repl.Key q) (Repl.Value q) (Repl.TS q))).
Proof.
  unfold Api.handlePut.
  case_bool_decide as Hm; [done|]. case_bool_decide as Hr; [done|].
  destruct (Api.Body r) as [req|]; [|done].
  case_bool_decide as Hk; [done|]. simpl. intros [= <- <- <-]. simpl.
  repeat split; try done; by apply dec_stable.
Qed.

(** X7.  A write the leader accepts is acknowledged "ok" whether or not it
    wins: the entry of its key afterwards is the record of the write when
    the key had no entry or an entry that is not newer, and it is the
    entry of before when that one is newer (the write is dropped without a
    word).  A read of the key that follows returns that entry. *)
Theorem handlePut_then_handleGet s reqID now
    (r : Api.Request Api.PutRequest) (g : Api.Request unit) resp s' q :
  Api.handlePut s reqID now r = (resp, s', Some q) →
  Api.Method g = Api.MethodGet →
  Api.QueryGet (Api.Query g) "key" = Repl.Key q →
  Api.Code resp = Api.StatusOK
  ∧ ∃ w, ApiRead.handleGet s' g
         = ApiRead.respondJSON Api.StatusOK (ApiRead.EntryJSON w)
      ∧ now ≤ TS w
      ∧ match data (Api.store s) !! Repl.Key q with
        | Some cur =>
            if TS cur <=? now
            then w = mkEntry (Repl.Key q) (Repl.Value q) now
            else w = cur
        | None => w = mkEntry (Repl.Key q) (Repl.Value q) now
        end.
Proof.
  intros Hput Hm Hkey.
  destruct (handlePut_inv _ _ _ _ _ _ _ Hput) as (_ & Hne & Hts & _ & -> & ->).
  split; [done|]. unfold ApiRead.handleGet.
  rewrite bool_decide_false by (by intros []). rewrite Hkey.
  rewrite bool_decide_false by done. unfold Get, index. simpl.
  rewrite lookup_Upsert. simpl. rewrite decide_True by done.
  rewrite Hts. unfold merged.
  destruct (data (Api.store s) !! Repl.Key q) as [cur|]; simpl.
  - destruct (Z.ltb_spec now (TS cur)); simpl.
    + exists cur. split; [done|]. split; [lia|].
      destruct (Z.leb_spec (TS cur) now); [lia | done].
    + eexists. split; [done|]. simpl. split; [lia|].
      destruct (Z.leb_spec (TS cur) now); [done | lia].
  - eexists. split; [done|]. simpl. split; [lia | done].
Qed.

Lemma handlePut_then_handleGet_witness :
  Api.Code (Api.putOK leader0 "req-1") = Api.StatusOK
  ∧ ∃ w, ApiRead.handleGet
           (Api.mkServer (Api.cfg leader0)
              (Upsert (Api.store leader0) (mkEntry "weather" "clear" 1000)))
           getWeather
         = ApiRead.respondJSON Api.StatusOK (ApiRead.EntryJSON w)
      ∧ 1000 ≤ TS w
      ∧ match data (Api.store leader0) !! Repl.Key req0 with
        | Some cur =>
            if TS cur <=? 1000
            then w = mkEntry (Repl.Key req0) (Repl.Value req0) 1000
            else w = cur
        | None => w = mkEntry (Repl.Key req0) (Repl.Value req0) 1000
        end.
Proof.
  apply (handlePut_then_handleGet leader0 "req-1" 1000 putWeather getWeather
           _ _ req0); reflexivity.
Defined.

(** X8.  Replication keeps leader and follower in step: when a node that is no
    leader receives, in a POST, the request the leader built for a write it
    accepted, it acknowledges "ok", and every key on which the two stores
    agreed before is one on which they agree afterwards. *)
Theorem handlePut_then_handleReplicate s f reqID now
    (r : Api.Request Api.PutRequest) query resp s' q :
  Api.handlePut s reqID now r = (resp, s', Some q) →
  Role (Api.cfg f) ≠ Leader →
  Api.Code (Api.handleReplicate f (Api.mkRequest Api.MethodPost query (Some q))).1
    = Api.StatusOK
  ∧ ∀ k, Get (Api.store s) k = Get (Api.store f) k →
         Get (Api.store s') k
         = Get (Api.store
                  (Api.handleReplicate f
                     (Api.mkRequest Api.MethodPost query (Some q))).2) k.
Proof.
  intros Hput Hf.
  destruct (handlePut_inv _ _ _ _ _ _ _ Hput) as (_ & _ & _ & _ & _ & ->).
  rewrite (handleReplicate_accepts f _ q) by done. simpl. split; [done|].
  intros k. unfold Get, index. rewrite !lookup_Upsert. simpl.
  destruct (decide (k = Repl.Key q)); [|done].
  destruct (data (Api.store s) !! k) as [a|], (data (Api.store f) !! k) as [b|];
    simpl; intros [=]; subst; done.
Qed.

Lemma handlePut_then_handleReplicate_witness :
  Api.Code (Api.handleReplicate follower0 replicateWeather).1 = Api.StatusOK
  ∧ ∀ k, Get (Api.store leader0) k = Get (Api.store follower0) k →
         Get (Api.store
                (Api.mkServer (Api.cfg leader0)
                   (Upsert (Api.store leader0)
                      (mkEntry "weather" "clear" 1000)))) k
         = Get (Api.store (Api.handleReplicate follower0 replicateWeather).2) k.
Proof.
  apply (handlePut_then_handleReplicate leader0 follower0 "req-1" 1000
           putWeather ∅ (Api.putOK leader0 "req-1"));
    [reflexivity | discriminate].
Defined.

(** X9.  No node takes both kinds of write: a server that accepts a client
    write rejects every replicated write, and one that accepts a
    replicated write rejects every client write. *)
Theorem write_paths_exclusive s reqID now
    (rp : Api.Request Api.PutRequest)
    (rr : Api.Request Repl.ReplicateRequest) :
  ¬ (Api.Code (Api.handlePut s reqID now rp).1.1 = Api.StatusOK
     ∧ Api.Code (Api.handleReplicate s rr).1 = Api.StatusOK).
Proof.
  unfold Api.handlePut, Api.handleReplicate. intros [Hp Hr].
  repeat case_bool_decide; simpl in *; try done.
Qed.

(** X10.  [handlePut] stores nothing under the empty key: a store without such
    an entry has none after any request. *)
Theorem handlePut_no_empty_key s reqID now (r : Api.Request Api.PutRequest) :
  data (Api.store s) !! "" = None →
  data (Api.store (Api.handlePut s reqID now r).1.2) !! "" = None.
Proof.
  intros Hnone. unfold Api.handlePut.
  case_bool_decide; [done|]. case_bool_decide; [done|].
  destruct (Api.Body r) as [req|]; [|done].
  case_bool_decide as Hk; [done|]. simpl.
  rewrite lookup_Upsert. simpl. by rewrite decide_False by done.
Qed.

Lemma handlePut_no_empty_key_witness :
  data (Api.store (Api.handlePut leader0 "req-1" 1000 putWeather).1.2) !! ""
  = None.
Proof. apply handlePut_no_empty_key. reflexivity. Defined.

(** X11.  The write handlers leave the configuration alone, and
    [handlePartition] changes nothing but the partition filter. *)
Theorem handlers_frame s reqID now
    (rp : Api.Request Api.PutRequest)
    (rr : Api.Request Repl.ReplicateRequest) (rq : Api.Request unit) :
  Api.cfg (Api.handlePut s reqID now rp).1.2 = Api.cfg s
  ∧ Api.cfg (Api.handleReplicate s rr).2 = Api.cfg s
  ∧ Api.store (Api.handlePartition s rq).2 = Api.store s
  ∧ ID (Api.cfg (Api.handlePartition s rq).2) = ID (Api.cfg s)
  ∧ Role (Api.cfg (Api.handlePartition s rq).2) = Role (Api.cfg s)
  ∧ Mode (Api.cfg (Api.handlePartition s rq).2) = Mode (Api.cfg s)
  ∧ Port (Api.cfg (Api.handlePartition s rq).2) = Port (Api.cfg s)
  ∧ Peers (Api.cfg (Api.handlePartition s rq).2) = Peers (Api.cfg s).
Proof.
  unfold Api.handlePut, Api.handleReplicate, Api.handlePartition.
  repeat split; repeat case_bool_decide; simpl; try done.
  - destruct (Api.Body rp) as [req|]; [|done]. by case_bool_decide.
  - by destruct (Api.Body rr).
Qed.

(** X12.  [handleGet] answers 200 with an entry exactly for a GET that names a
    non-empty key the store has an entry for, and the entry it writes is
    that one.  So an entry stored under the empty key is never served:
    the request for it is answered 400. *)
Theorem handleGet_serves s (g : Api.Request unit) :
  let key := Api.QueryGet (Api.Query g) "key" in
  (ApiRead.Code (ApiRead.handleGet s g) = Api.StatusOK ↔
     Api.Method g = Api.MethodGet ∧ key ≠ ""
     ∧ is_Some (data (Api.store s) !! key))
  ∧ (∀ e, ApiRead.Written (ApiRead.handleGet s g) = ApiRead.EntryJSON e →
          key ≠ "" ∧ data (Api.store s) !! key = Some e)
  ∧ (Api.Method g = Api.MethodGet → key = "" →
       ApiRead.Code (ApiRead.handleGet s g) = Api.StatusBadRequest)
  ∧ (Api.Method g = Api.MethodGet → key ≠ "" →
       data (Api.store s) !! key = None →
       ApiRead.Code (ApiRead.handleGet s g) = ApiRead.StatusNotFound).
Proof.
  intros key. unfold ApiRead.handleGet. fold key. unfold Get, index.
  case_bool_decide as Hm; simpl;
    [split_and!; try done; split; [done | by intros [? _]]|].
  case_bool_decide as Hk; simpl;
    [split_and!; try done; split; [done | by intros (_ & ? & _)]|].
  destruct (data (Api.store s) !! key) as [e|] eqn:He; simpl;
    split_and!; try done.
  - by intros e' [= ->].
  - split; [done|]. by intros (_ & _ & [? ?]).
Qed.

(** X13.  [handleStatus] answers a GET with the configuration, all the entries
    of the store and the whole partition filter, and any other method with
    405. *)
Theorem handleStatus_reports s (g : Api.Request unit) :
  (Api.Method g = Api.MethodGet →
     ApiRead.handleStatus s g =
       ApiRead.respondJSON Api.StatusOK
         (ApiRead.StatusJSON
            (ApiRead.mkStatus (ID (Api.cfg s)) (Role (Api.cfg s))
               (Mode (Api.cfg s)) (Port (Api.cfg s)) (Peers (Api.cfg s))
               (data (Api.store s)) (BlockPeers (Api.cfg s)))))
  ∧ (Api.Method g ≠ Api.MethodGet →
       ApiRead.Code (ApiRead.handleStatus s g) = Api.StatusMethodNotAllowed).
Proof.
  unfold ApiRead.handleStatus, Snapshot. split; intros Hm.
  - rewrite bool_decide_false by (by intros []). by rewrite !map_fold_copy.
  - by rewrite bool_decide_true.
Qed.

(** X14.  A partition request repeated changes nothing more: serving the same
    request a second time leaves the server as the first time left it. *)
Theorem handlePartition_idempotent s (r : Api.Request unit) :
  (Api.handlePartition (Api.handlePartition s r).2 r).2
  = (Api.handlePartition s r).2.
Proof.
  unfold Api.handlePartition. case_bool_decide as Hm; simpl; [done|].
  unfold Api.setBlockPeers. simpl. f_equal. f_equal.
  set (a := Api.QueryGet (Api.Query r) "block").
  set (b := Api.QueryGet (Api.Query r) "unblock").
  set (m := BlockPeers (Api.cfg s)).
  apply map_eq. intros k.
  repeat case_bool_decide;
    rewrite ?lookup_delete, ?lookup_insert, ?lookup_delete, ?lookup_insert;
    repeat case_decide; subst; try done.
Qed.

(** X15.  What a partition request does to each peer: the peer named by
    [unblock] is not blocked afterwards; the peer named by [block] is
    blocked unless [unblock] names it too; every other peer stays as it
    was. *)
Theorem handlePartition_effect s (r : Api.Request unit) :
  Api.Method r = Api.MethodPost →
  let a := Api.QueryGet (Api.Query r) "block" in
  let b := Api.QueryGet (Api.Query r) "unblock" in
  (b ≠ "" → Api.blocked (Api.handlePartition s r).2 b = false)
  ∧ (a ≠ "" → a ≠ b → Api.blocked (Api.handlePartition s r).2 a = true)
  ∧ (∀ u, u ≠ a → u ≠ b →
       Api.blocked (Api.handlePartition s r).2 u = Api.blocked s u)
  ∧ Api.handlePartition s r =
      (Api.respondJSON Api.StatusOK
         (Api.BlockPeersJSON (BlockPeers (Api.cfg (Api.handlePartition s r).2))),
       (Api.handlePartition s r).2).
Proof.
  intros Hm a b. unfold Api.blocked, Api.handlePartition. fold a b.
  rewrite bool_decide_false by (by intros []). simpl.
  split; [|split; [|split]].
  - intros Hb. rewrite (bool_decide_true (b ≠ "")) by done.
    by rewrite lookup_delete_eq.
  - intros Ha Hab. rewrite (bool_decide_true (a ≠ "")) by done.
    case_bool_decide.
    + rewrite lookup_delete_ne by done. by rewrite lookup_insert_eq.
    + by rewrite lookup_insert_eq.
  - intros u Ha Hb. repeat case_bool_decide;
      rewrite ?lookup_delete_ne, ?lookup_insert_ne by done; done.
  - done.
Qed.

Lemma handlePartition_effect_witness :
  (follower1URL ≠ "" →
     Api.blocked (Api.handlePartition leader0 partitionBoth).2 follower1URL
     = false)
  ∧ (follower1URL ≠ "" → follower1URL ≠ follower1URL →
       Api.blocked (Api.handlePartition leader0 partitionBoth).2 follower1URL
       = true)
  ∧ (∀ u, u ≠ follower1URL → u ≠ follower1URL →
       Api.blocked (Api.handlePartition leader0 partitionBoth).2 u
       = Api.blocked leader0 u)
  ∧ Api.handlePartition leader0 partitionBoth =
      (Api.respondJSON Api.StatusOK
         (Api.BlockPeersJSON
            (BlockPeers (Api.cfg (Api.handlePartition leader0 partitionBoth).2))),
       (Api.handlePartition leader0 partitionBoth).2).
Proof. apply (handlePartition_effect leader0 partitionBoth). reflexivity. Defined.

(** X16.  The partition filter holds nothing but [true] marks and never the
    empty address: [handlePartition] keeps it so, whatever the request, and
    in such a filter the blocked peers are the keys of the map. *)
Theorem handlePartition_filter_ok s (r : Api.Request unit) :
  filter_ok (BlockPeers (Api.cfg s)) →
  filter_ok (BlockPeers (Api.cfg (Api.handlePartition s r).2))
  ∧ ∀ u, Api.blocked (Api.handlePartition s r).2 u = true
         ↔ is_Some (BlockPeers (Api.cfg (Api.handlePartition s r).2) !! u).
Proof.
  intros Hok.
  assert (filter_ok (BlockPeers (Api.cfg (Api.handlePartition s r).2))) as Hok'.
  { unfold Api.handlePartition. case_bool_decide; [done|]. simpl.
    intros u b. repeat case_bool_decide;
      rewrite ?lookup_delete, ?lookup_insert; repeat case_decide;
      try done; try apply Hok.
    - intros [= <-]. by subst.
    - intros [= <-]. by subst. }
  split; [done|]. intros u. unfold Api.blocked.
  destruct (BlockPeers (Api.cfg (Api.handlePartition s r).2) !! u) as [b|] eqn:Hu;
    simpl.
  - destruct (Hok' u b Hu) as [-> _]. split; [by eexists | done].
  - split; [done | by intros [? ?]].
Qed.

Lemma handlePartition_filter_ok_witness :
  filter_ok (BlockPeers (Api.cfg (Api.handlePartition leader0 partitionBoth).2))
  ∧ ∀ u, Api.blocked (Api.handlePartition leader0 partitionBoth).2 u = true
         ↔ is_Some (BlockPeers
                      (Api.cfg (Api.handlePartition leader0 partitionBoth).2)
                    !! u).
Proof.
  apply handlePartition_filter_ok. intros u b.
  unfold leader0. simpl. intros Hu.
  apply lookup_singleton_Some in Hu as [<- <-]. done.
Defined.

End HandlersMore.

(* ===================================================================== *)
(** ** More theorems: the replication broadcaster *)
(* ===================================================================== *)

Section BroadcastMore.

Variable req : Repl.ReplicateRequest.

Implicit Types (x y : Api.State) (t : Api.Task) (ts : list Api.Task).

Lemma pending_exited ts :
  Forall Api.hasExited ts → sum_list_with Api.pending ts = 0%nat.
Proof.
  induction 1 as [|t ts Ht _ IH]; [done|]. simpl. rewrite IH.
  unfold Api.pending. by destruct (Api.hasExited t).
Qed.

(** X17.  The wait group's counter is the number of goroutines that have not
    made their [wg.Done()] yet: it never goes below zero, and it is zero
    exactly when every goroutine started so far has ended. *)
Theorem wg_counts_pending s0 x :
  Api.reachable req s0 x →
  Api.wg x = Z.of_nat (sum_list_with Api.pending (Api.tasks x))
  ∧ 0 ≤ Api.wg x
  ∧ (Api.wg x = 0 ↔ Forall Api.hasExited (Api.tasks x)).
Proof.
  intros Hreach. destruct (invariant_reachable req s0 x Hreach)
    as [_ _ _ _ Hwg _ _].
  split; [done|]. split; [lia|]. split.
  - intros Hz. apply pending_zero. lia.
  - intros Hex. rewrite Hwg, (pending_exited _ Hex). done.
Qed.

Lemma tasks_prefix s0 x :
  invariant req s0 x →
  ∃ rest, (Api.url <$> Api.tasks x) ++ rest = Peers (Api.cfg s0).
Proof.
  intros [_ _ Hb _ _ _ _]. destruct (Api.bcast x) as [|rest| |]; simpl in Hb.
  - exists (Peers (Api.cfg s0)). by rewrite Hb.
  - by exists rest.
  - exists []. rewrite app_nil_r. by destruct Hb.
  - exists []. rewrite app_nil_r. by destruct Hb.
Qed.

(** X18.  A broadcast makes no call it should not: the calls to
    [repl.PostReplicate] are, as a multiset, part of the peer list paired
    with the request of the broadcast, so no entry of the list gets a
    second call (nothing is sent twice, nothing is retried); in particular
    every call carries that request and goes to an address of the list, and
    there are never more calls than the list has entries. *)
Theorem posts_within_peers s0 x :
  Api.reachable req s0 x →
  Api.posts x ⊆+ (fun u => (u, req)) <$> Peers (Api.cfg s0)
  ∧ (∀ u q, (u, q) ∈ Api.posts x → q = req ∧ u ∈ Peers (Api.cfg s0))
  ∧ (length (Api.posts x) ≤ length (Peers (Api.cfg s0)))%nat.
Proof.
  intros Hreach. pose proof (invariant_reachable req s0 x Hreach) as Hinv.
  destruct (tasks_prefix s0 x Hinv) as [rest Hrest].
  destruct Hinv as [_ _ _ _ _ _ Hps].
  assert (Api.posts x ⊆+ (fun u => (u, req)) <$> Peers (Api.cfg s0)) as Hsub.
  { rewrite Hps, <- Hrest.
    rewrite (list_fmap_compose Api.url (fun u => (u, req))).
    apply fmap_submseteq, submseteq_inserts_r, fmap_submseteq.
    apply sublist_submseteq, sublist_filter. }
  split; [done|]. split.
  - intros u q Hin.
    apply (elem_of_submseteq _ _ _ Hin) in Hsub.
    apply list_elem_of_fmap in Hsub as (u' & [= -> ->] & Hu). done.
  - apply submseteq_length in Hsub. by rewrite length_fmap in Hsub.
Qed.

(** *** Progress in every mode *)

Lemma progress s0 x :
  invariant req s0 x → terminal x ∨ ∃ y, Api.prog_step req x y.
Proof.
  intros [Hpeers Hmode Hb Hh Hwg Hts Hps].
  destruct x as [s h b w ts ps]. simpl in *.
  assert (b ≠ Api.NotCalled →
          (b = Api.Returned ∧ Forall Api.hasExited ts)
          ∨ ∃ y, Api.prog_step req (Api.mkState s h b w ts ps) y) as Hbcast.
  { intros Hnc. destruct b as [|[|u rest]| |]; simpl in *; [done| | | |].
    - right. destruct (decide (Mode (Api.cfg s) = Sync)).
      + eexists. left. by apply Api.step_loop_end_sync.
      + eexists. left. by apply Api.step_loop_end_nowait.
    - right. eexists. left. apply Api.step_spawn.
    - right. destruct (decide (sum_list_with Api.pending ts = 0%nat)) as [Hz|Hnz].
      + rewrite Hz in Hwg. subst w. eexists. left. apply Api.step_wait.
      + destruct (pending_pos ts Hnz) as (i & t & Hi & Hex).
        destruct (task_can_step req s h Api.AtWait w ts ps i t)
          as [y Hy]; [done | | done |].
        { apply (Forall_lookup_1 _ _ _ _ Hts Hi). }
        exists y. right. by exists i.
    - destruct (decide (sum_list_with Api.pending ts = 0%nat)) as [Hz|Hnz].
      + left. split; [done|]. by apply pending_zero.
      + right. destruct (pending_pos ts Hnz) as (i & t & Hi & Hex).
        destruct (task_can_step req s h Api.Returned w ts ps i t)
          as [y Hy]; [done | | done |].
        { apply (Forall_lookup_1 _ _ _ _ Hts Hi). }
        exists y. right. by exists i. }
  destruct h as [| | |resp]; simpl in *.
  - subst b. right. destruct (decide (Mode (Api.cfg s) = Async)).
    + eexists. left. by apply Api.step_go_broadcast.
    + eexists. left. by apply Api.step_call_broadcast.
  - destruct Hh as [Hnc _]. destruct (Hbcast Hnc) as [[-> _]|Hy]; [|by right].
    right. eexists. left. apply Api.step_return.
  - right. eexists. left. apply Api.step_respond.
  - destruct Hh as (_ & Hnc & _). destruct (Hbcast Hnc) as [[-> Hex]|Hy];
      [|by right].
    left. split; [by eexists|]. done.
Qed.

Lemma terminal_stuck x y : terminal x → ¬ Api.prog_step req x y.
Proof.
  intros ([resp Hh] & Hb & Hex) [Hm | [i Ht]].
  - destruct Hm; simpl in *; done.
  - destruct Ht as [s h b w ts ps u Hi | s h b w ts ps u Hi
                   | s h b w ts ps u answer Hi | s h b w ts ps u ib o Hi];
      simpl in *;
      pose proof (Forall_lookup_1 _ _ _ _ Hex Hi) as Ht; done.
Qed.

Lemma runs_to_terminal s0 n x :
  Api.reachable req s0 x → (Api.fuel x ≤ n)%nat →
  ∃ y, rtc (Api.prog_step req) x y ∧ Api.reachable req s0 y ∧ terminal y.
Proof.
  revert x. induction n as [|n IH]; intros x Hreach Hfuel;
    (destruct (progress s0 x (invariant_reachable req s0 x Hreach))
       as [Hterm | [y Hy]]; [by exists x|]);
    pose proof (prog_step_fuel req x y Hy) as Hlt; [lia|].
  destruct (IH y) as (z & Hz & Hrz & Htz); [|lia|].
  - eapply rtc_r; [exact Hreach | by left].
  - exists z. split; [by eapply rtc_l | done].
Qed.

(** X19.  In every mode each goroutine runs to its end: a state from which the
    program has no step is one where the write is answered, the broadcast
    has returned and every entry of the peer list has a goroutine that has
    ended; the program has a step in every other state, and from every
    state it can run on to such an end.  In async mode too, then, no
    goroutine is left behind. *)
Theorem broadcast_runs_to_completion s0 x :
  Api.reachable req s0 x →
  (terminal x ↔ ¬ ∃ y, Api.prog_step req x y)
  ∧ (terminal x →
       Api.url <$> Api.tasks x = Peers (Api.cfg s0)
       ∧ Forall (fun t => ∃ o, Api.pc t = Api.Exited o) (Api.tasks x))
  ∧ ∃ y, rtc (Api.prog_step req) x y ∧ terminal y.
Proof.
  intros Hreach. pose proof (invariant_reachable req s0 x Hreach) as Hinv.
  split; [|split].
  - split.
    + intros Hterm [y Hy]. by apply (terminal_stuck x y).
    + intros Hstuck. destruct (progress s0 x Hinv) as [?|Hy]; [done|].
      by destruct Hstuck.
  - intros (_ & Hb & Hex). destruct Hinv as [_ _ Hbc _ _ _ _].
    rewrite Hb in Hbc. destruct Hbc as [Hu _].
    split; [done | by apply exited_outcome].
  - destruct (runs_to_terminal s0 (Api.fuel x) x Hreach) as (y & ? & _ & ?);
      [lia|]. by exists y.
Qed.

End BroadcastMore.

Lemma wg_counts_pending_witness :
  Api.wg final0 = Z.of_nat (sum_list_with Api.pending (Api.tasks final0))
  ∧ 0 ≤ Api.wg final0
  ∧ (Api.wg final0 = 0 ↔ Forall Api.hasExited (Api.tasks final0)).
Proof. apply (wg_counts_pending req0 leader0 final0), run_final0. Defined.

Lemma posts_within_peers_witness :
  Api.posts final0 ⊆+ (fun u => (u, req0)) <$> Peers (Api.cfg leader0)
  ∧ (∀ u q, (u, q) ∈ Api.posts final0 → q = req0 ∧ u ∈ Peers (Api.cfg leader0))
  ∧ (length (Api.posts final0) ≤ length (Peers (Api.cfg leader0)))%nat.
Proof. apply (posts_within_peers req0 leader0 final0), run_final0. Defined.

Lemma broadcast_runs_to_completion_witness :
  (terminal final0 ↔ ¬ ∃ y, Api.prog_step req0 final0 y)
  ∧ (terminal final0 →
       Api.url <$> Api.tasks final0 = Peers (Api.cfg leader0)
       ∧ Forall (fun t => ∃ o, Api.pc t = Api.Exited o) (Api.tasks final0))
  ∧ ∃ y, rtc (Api.prog_step req0) final0 y ∧ terminal y.
Proof.
  apply (broadcast_runs_to_completion req0 leader0 final0), run_final0.
Defined.


Section BroadcastQuiet.

Variable req : Repl.ReplicateRequest.

Implicit Types (x y : Api.State) (t : Api.Task) (ts : list Api.Task).

(** *** The response before the deliveries *)

Lemma spawn_all s h rest w ts ps :
  rtc (Api.step req)
    (Api.mkState s h (Api.InLoop rest) w ts ps)
    (Api.mkState s h (Api.InLoop []) (w + Z.of_nat (length rest))
       (ts ++ (started <$> rest)) ps).
Proof.
  revert w ts. induction rest as [|u rest IH]; intros w ts.
  - simpl. rewrite Z.add_0_r, app_nil_r. apply rtc_refl.
  - change (length (u :: rest)) with (S (length rest)).
    rewrite Nat2Z.inj_succ, fmap_cons.
    eapply rtc_l. { left. left. apply Api.step_spawn. }
    specialize (IH (w + 1) (ts ++ [Api.mkTask u None Api.AtCheck])).
    rewrite <- app_assoc in IH. simpl in IH.
    replace (w + Z.succ (Z.of_nat (length rest)))
      with (w + 1 + Z.of_nat (length rest)) by lia.
    exact IH.
Qed.

(** X20.  Outside sync mode the write can be answered before any delivery is
    attempted: there is a run to the state where the response, 200 with
    status "ok", is written and the goroutines of all peers are started
    but none has so much as looked at the partition filter. *)
Theorem no_wait_outside_sync s0 :
  Mode (Api.cfg s0) ≠ Sync →
  Api.reachable req s0 (answered_early req s0)
  ∧ Api.handler (answered_early req s0)
    = Api.Responded
        (Api.respondJSON Api.StatusOK
           (Api.PutResponseJSON
              (Api.mkPutResponse "ok" (Mode (Api.cfg s0)) (Repl.ReqID req))))
  ∧ Api.posts (answered_early req s0) = []
  ∧ Forall (fun t => Api.pc t = Api.AtCheck) (Api.tasks (answered_early req s0))
  ∧ Api.url <$> Api.tasks (answered_early req s0) = Peers (Api.cfg s0).
Proof.
  intros Hmode. split; [|split; [done|split; [done|split]]].
  - unfold Api.reachable, Api.init, answered_early.
    destruct (decide (Mode (Api.cfg s0) = Async)) as [Ha|Ha].
    + eapply rtc_l. { left. left. by apply Api.step_go_broadcast. }
      etrans; [apply spawn_all|]. simpl.
      eapply rtc_l. { left. left. by apply Api.step_loop_end_nowait. }
      eapply rtc_l. { left. left. apply Api.step_respond. }
      apply rtc_refl.
    + eapply rtc_l. { left. left. by apply Api.step_call_broadcast. }
      etrans; [apply spawn_all|]. simpl.
      eapply rtc_l. { left. left. by apply Api.step_loop_end_nowait. }
      eapply rtc_l. { left. left. apply Api.step_return. }
      eapply rtc_l. { left. left. apply Api.step_respond. }
      apply rtc_refl.
  - unfold answered_early. simpl. apply Forall_fmap, Forall_forall. done.
  - unfold answered_early. simpl. rewrite <- list_fmap_compose.
    apply list_fmap_id.
Qed.

(** *** Runs without partition requests *)

Lemma quiet_reachable_reachable s0 x :
  quiet_reachable req s0 x → Api.reachable req s0 x.
Proof.
  unfold quiet_reachable, Api.reachable. apply rtc_subrel.
  intros y z Hyz. by left.
Qed.

(** In a quiet run the server stays what it was and every goroutine that
    has made its check holds the answer of the filter of the start. *)
Lemma quiet_invariant s0 x :
  quiet_reachable req s0 x →
  Api.srv x = s0
  ∧ Forall (fun t => ∀ b, Api.isBlocked t = Some b →
                          b = Api.blocked s0 (Api.url t)) (Api.tasks x).
Proof.
  unfold quiet_reachable. revert x.
  apply (rtc_ind_r (fun x => Api.srv x = s0
    ∧ Forall (fun t => ∀ b, Api.isBlocked t = Some b →
                            b = Api.blocked s0 (Api.url t)) (Api.tasks x))).
  { split; [done | by constructor]. }
  intros x y _ Hstep [Hsrv Hall]. destruct Hstep as [Hm | [i Ht]].
  - destruct Hm; simpl in *; split; try done.
    apply Forall_app. split; [done|]. by repeat constructor.
  - destruct Ht as [s h b w ts ps u Hi | s h b w ts ps u Hi
                   | s h b w ts ps u answer Hi | s h b w ts ps u ib o Hi];
      simpl in *; (split; [done|]); apply Forall_insert; try done;
      simpl; try (intros b' [= <-]; by subst);
      apply (Forall_lookup_1 _ _ _ _ Hall Hi).
Qed.

Lemma filter_fmap_url (P : string → Prop) `{∀ u, Decision (P u)} ts :
  Api.url <$> filter (fun t => P (Api.url t)) ts = filter P (Api.url <$> ts).
Proof.
  induction ts as [|t ts IH]; [done|]. rewrite fmap_cons, !filter_cons.
  destruct (decide (P (Api.url t))); [|done]. by rewrite fmap_cons, IH.
Qed.

Lemma filter_ext_Forall {A} (P Q : A → Prop)
    `{∀ a, Decision (P a)} `{∀ a, Decision (Q a)} (l : list A) :
  Forall (fun a => P a ↔ Q a) l → filter P l = filter Q l.
Proof.
  induction 1 as [|a l Ha _ IH]; [done|]. rewrite !filter_cons, IH.
  destruct (decide (P a)), (decide (Q a)); tauto.
Qed.

Lemma quiet_posted_unblocked s0 x t :
  quiet_reachable req s0 x → t ∈ Api.tasks x → Api.hasPosted t →
  Api.blocked s0 (Api.url t) = false.
Proof.
  intros Hq Ht Hposted. destruct (quiet_invariant s0 x Hq) as [_ Hall].
  rewrite Forall_forall in Hall. specialize (Hall t Ht).
  destruct t as [u ib p]. unfold Api.hasPosted in Hposted. simpl in *.
  destruct p, ib as [[|]|]; try done; symmetry; by apply Hall.
Qed.

Lemma quiet_filter_posted s0 x :
  quiet_reachable req s0 x → Forall Api.hasExited (Api.tasks x) →
  filter Api.hasPosted (Api.tasks x)
  = filter (fun t => Api.blocked s0 (Api.url t) = false) (Api.tasks x).
Proof.
  intros Hq Hex. pose proof (quiet_reachable_reachable s0 x Hq) as Hreach.
  destruct (quiet_invariant s0 x Hq) as [_ Hall].
  destruct (invariant_reachable req s0 x Hreach) as [_ _ _ _ _ Hts _].
  rewrite filter_posted_exited by done.
  apply filter_ext_Forall. rewrite Forall_forall in Hall, Hts, Hex.
  apply Forall_forall. intros t Ht.
  specialize (Hall t Ht). specialize (Hts t Ht). specialize (Hex t Ht).
  destruct t as [u ib p]. unfold task_ok, Api.hasExited in *. simpl in *.
  destruct p as [| |o|o]; try done.
  destruct Hts as [[-> _]|[-> _]].
  - rewrite <- (Hall true) by done. split; done.
  - rewrite <- (Hall false) by done. split; done.
Qed.

Lemma quiet_posts s0 x :
  quiet_reachable req s0 x →
  (∀ u q, (u, q) ∈ Api.posts x → Api.blocked s0 u = false)
  ∧ (terminal x →
       Api.posts x
       ≡ₚ (fun u => (u, req))
            <$> filter (fun u => Api.blocked s0 u = false)
                  (Peers (Api.cfg s0))).
Proof.
  intros Hq. pose proof (quiet_reachable_reachable s0 x Hq) as Hreach.
  destruct (invariant_reachable req s0 x Hreach) as [_ _ Hbc _ _ _ Hps].
  split.
  - intros u q Hin. rewrite Hps in Hin.
    apply list_elem_of_fmap in Hin as (t & [= -> ->] & Ht).
    apply list_elem_of_filter in Ht as [Hposted Ht].
    by apply (quiet_posted_unblocked s0 x t).
  - intros (_ & Hb & Hex). rewrite Hb in Hbc. destruct Hbc as [Hu _].
    rewrite Hps, (quiet_filter_posted s0 x) by done.
    rewrite <- Hu, <- (filter_fmap_url (fun u => Api.blocked s0 u = false)).
    by rewrite <- list_fmap_compose.
Qed.

(** X21.  Partition isolation.  In a run during which no partition request is
    served, no call goes to a peer that was blocked when the run began; and
    when the run is over, the calls made are, up to their order, one for
    each entry of the peer list that was not blocked. *)
Theorem blocked_peer_gets_nothing s0 x :
  quiet_reachable req s0 x →
  (∀ u q, (u, q) ∈ Api.posts x → Api.blocked s0 u = false)
  ∧ (terminal x →
       Api.posts x
       ≡ₚ (fun u => (u, req))
            <$> filter (fun u => Api.blocked s0 u = false)
                  (Peers (Api.cfg s0))).
Proof.
  intros Hq. pose proof (quiet_reachable_reachable s0 x Hq) as Hreach.
  destruct (invariant_reachable req s0 x Hreach) as [_ _ Hbc _ _ _ Hps].
  split.
  - intros u q Hin. rewrite Hps in Hin.
    apply list_elem_of_fmap in Hin as (t & Heq & Ht).
    injection Heq as -> ->.
    apply list_elem_of_filter in Ht as [Hposted Ht].
    by apply (quiet_posted_unblocked s0 x t).
  - intros (_ & Hb & Hex). rewrite Hb in Hbc. destruct Hbc as [Hu _].
    rewrite Hps, (quiet_filter_posted s0 x) by done.
    rewrite <- Hu, <- (filter_fmap_url (fun u => Api.blocked s0 u = false)).
    by rewrite <- list_fmap_compose.
Qed.

Lemma handlePartition_blocked (s : Api.Server) (r : Api.Request unit) :
  Api.Method r = Api.MethodPost →
  (Api.QueryGet (Api.Query r) "block" ≠ "" →
   Api.QueryGet (Api.Query r) "block" ≠ Api.QueryGet (Api.Query r) "unblock" →
   Api.blocked (Api.handlePartition s r).2
     (Api.QueryGet (Api.Query r) "block") = true)
  ∧ (Api.QueryGet (Api.Query r) "unblock" ≠ "" →
     Api.blocked (Api.handlePartition s r).2
       (Api.QueryGet (Api.Query r) "unblock") = false).
Proof.
  intros Hm.
  set (a := Api.QueryGet (Api.Query r) "block").
  set (b := Api.QueryGet (Api.Query r) "unblock").
  unfold Api.blocked, Api.handlePartition. fold a b.
  rewrite bool_decide_false by (by intros []). simpl. split.
  - intros Ha Hab. rewrite (bool_decide_true (a ≠ "")) by done.
    case_bool_decide.
    + rewrite lookup_delete_ne by done. by rewrite lookup_insert_eq.
    + by rewrite lookup_insert_eq.
  - intros Hb. rewrite (bool_decide_true (b ≠ "")) by done.
    by rewrite lookup_delete_eq.
Qed.

(** X22.  Partition control and broadcast together, when no further partition
    request comes during the broadcast: after a request that blocks a
    peer, the broadcast of a write makes no call to it; after a request
    that unblocks a peer of the list, the broadcast, once over, has made
    its call to it. *)
Theorem partition_then_broadcast (s : Api.Server) (r : Api.Request unit) x :
  Api.Method r = Api.MethodPost →
  quiet_reachable req (Api.handlePartition s r).2 x →
  (Api.QueryGet (Api.Query r) "block" ≠ "" →
   Api.QueryGet (Api.Query r) "block" ≠ Api.QueryGet (Api.Query r) "unblock" →
   ∀ q, (Api.QueryGet (Api.Query r) "block", q) ∉ Api.posts x)
  ∧ (Api.QueryGet (Api.Query r) "unblock" ≠ "" →
     Api.QueryGet (Api.Query r) "unblock" ∈ Peers (Api.cfg s) →
     terminal x →
     (Api.QueryGet (Api.Query r) "unblock", req) ∈ Api.posts x).
Proof.
  intros Hm Hq. destruct (handlePartition_blocked s r Hm) as [Hblock Hunblock].
  destruct (quiet_posts _ x Hq) as [Hnone Hall]. split.
  - intros Ha Hab q Hin. apply Hnone in Hin.
    rewrite Hblock in Hin by done. done.
  - intros Hb Hpeer Hterm. rewrite (Hall Hterm).
    apply list_elem_of_fmap. eexists. split; [done|].
    apply list_elem_of_filter. split; [by apply Hunblock|].
    by rewrite Peers_handlePartition.
Qed.

End BroadcastQuiet.

Lemma no_wait_outside_sync_witness :
  Api.reachable req0 leaderAsync (answered_early req0 leaderAsync)
  ∧ Api.handler (answered_early req0 leaderAsync)
    = Api.Responded
        (Api.respondJSON Api.StatusOK
           (Api.PutResponseJSON
              (Api.mkPutResponse "ok" (Mode (Api.cfg leaderAsync))
                 (Repl.ReqID req0))))
  ∧ Api.posts (answered_early req0 leaderAsync) = []
  ∧ Forall (fun t => Api.pc t = Api.AtCheck)
      (Api.tasks (answered_early req0 leaderAsync))
  ∧ Api.url <$> Api.tasks (answered_early req0 leaderAsync)
    = Peers (Api.cfg leaderAsync).
Proof. apply (no_wait_outside_sync req0 leaderAsync). discriminate. Defined.

Lemma quiet_final0 : quiet_reachable req0 leader0 final0.
Proof.
  unfold quiet_reachable, Api.init.
  eapply rtc_l. { left. by apply Api.step_call_broadcast. }
  eapply rtc_l. { left. apply Api.step_spawn. }
  eapply rtc_l. { left. apply Api.step_spawn. }
  eapply rtc_l. { left. by apply Api.step_loop_end_sync. }
  eapply rtc_l. { right. exists 0%nat. by eapply Api.step_check. }
  eapply rtc_l. { right. exists 1%nat. by eapply Api.step_check. }
  eapply rtc_l. { right. exists 0%nat. by eapply Api.step_skip. }
  eapply rtc_l.
  { right. exists 1%nat.
    by eapply (Api.step_post _ _ _ _ _ _ _ _ _
                 (Repl.PostError "connection refused")). }
  eapply rtc_l. { right. exists 0%nat. by eapply Api.step_done. }
  eapply rtc_l. { right. exists 1%nat. by eapply Api.step_done. }
  eapply rtc_l. { left. apply Api.step_wait. }
  eapply rtc_l. { left. apply Api.step_return. }
  eapply rtc_l. { left. apply Api.step_respond. }
  apply rtc_refl.
Qed.

Lemma blocked_peer_gets_nothing_witness :
  (∀ u q, (u, q) ∈ Api.posts final0 → Api.blocked leader0 u = false)
  ∧ (terminal final0 →
       Api.posts final0
       ≡ₚ (fun u => (u, req0))
            <$> filter (fun u => Api.blocked leader0 u = false)
                  (Peers (Api.cfg leader0))).
Proof. apply (blocked_peer_gets_nothing req0 leader0 final0), quiet_final0. Defined.

Lemma partition_then_broadcast_witness :
  (Api.QueryGet (Api.Query partitionBlock1) "block" ≠ "" →
   Api.QueryGet (Api.Query partitionBlock1) "block"
   ≠ Api.QueryGet (Api.Query partitionBlock1) "unblock" →
   ∀ q, (Api.QueryGet (Api.Query partitionBlock1) "block", q) ∉ Api.posts final0)
  ∧ (Api.QueryGet (Api.Query partitionBlock1) "unblock" ≠ "" →
     Api.QueryGet (Api.Query partitionBlock1) "unblock"
     ∈ Peers (Api.cfg leaderOpen) →
     terminal final0 →
     (Api.QueryGet (Api.Query partitionBlock1) "unblock", req0)
     ∈ Api.posts final0).
Proof.
  apply (partition_then_broadcast req0 leaderOpen partitionBlock1 final0);
    [reflexivity|].
  replace (Api.handlePartition leaderOpen partitionBlock1).2 with leader0
    by (vm_compute; reflexivity).
  apply quiet_final0.
Defined.

(* ===================================================================== *)
(** ** More theorems: transport, peer list and start-up *)
(* ===================================================================== *)

(** X23.  A delivery and the peer's handler together.  When the request
    marshals and the peer decodes the body it is sent, the POST that
    [PostReplicate] makes is reported as delivered exactly when the peer is
    no leader: a leader answers 403 and the delivery is an error.  A request
    that does not marshal (a year outside 0..9999) is an error whatever the
    peer would answer, and so is every failure of the network. *)
Theorem PostReplicate_to_handler (f : Api.Server) query q u status :
  (Repl.PostReplicate
     (Repl.PostStatus
        (Api.Code
           (Api.handleReplicate f
              (Api.mkRequest Api.MethodPost query (Some q))).1)
        status)
     u q = None
   ↔ Repl.marshals q = true ∧ Role (Api.cfg f) ≠ Leader)
  ∧ (∀ err, Repl.PostReplicate (Repl.PostError err) u q ≠ None)
  ∧ (Repl.marshals q = false →
       ∀ answer, Repl.PostReplicate answer u q =
         Some ("failed to marshal replicate request: " +:+ Repl.marshalError)).
Proof.
  unfold Api.handleReplicate, Repl.PostReplicate. split; [|split].
  - rewrite bool_decide_false by (by intros []).
    destruct (Repl.marshals q); simpl; [|split; [done | by intros []]].
    case_bool_decide as Hr; simpl; split; try done; by intros [_ ?].
  - intros err. by destruct (Repl.marshals q).
  - by intros ->.
Qed.

Section PeersMore.

Context `{NetURL}.

Lemma NormalizePeers_omap (peersCSV : string) :
  NormalizePeers peersCSV = omap normalizeSegment_spec (Split peersCSV).
Proof.
  unfold NormalizePeers. case_bool_decide as Hb.
  - rewrite Split_blank by done. simpl.
    unfold normalizeSegment_spec. by rewrite Hb.
  - by rewrite foldl_normalizeStep.
Qed.

Lemma Split_nonempty s : Split s ≠ [].
Proof.
  destruct s as [|c s]; simpl; [done|].
  destruct (Ascii.eqb c ","); [done|]. by destruct (Split s).
Qed.

Lemma Split_app_comma a b :
  Split (a +:+ "," +:+ b) = Split a ++ Split b.
Proof.
  induction a as [|c a IH]; simpl; [done|].
  destruct (Ascii.eqb c ","); simpl.
  - by rewrite IH.
  - rewrite IH. pose proof (Split_nonempty a).
    by destruct (Split a).
Qed.

(** X24.  Peer lists add up: the peers of two lists joined by a comma are the
    peers of the first followed by the peers of the second.  No segment
    changes what another one gives, and order and repetitions are kept. *)
Theorem NormalizePeers_app (a b : string) :
  NormalizePeers (a +:+ "," +:+ b) = NormalizePeers a ++ NormalizePeers b.
Proof.
  rewrite !NormalizePeers_omap, Split_app_comma. apply omap_app.
Qed.

Lemma blocked_fresh id role mode port peers u :
  Api.blocked (Main.server id role mode port peers) u = false.
Proof. done. Qed.

(** X25.  A leader as [main] starts it blocks no peer: when its broadcast of a
    write is over, and no partition request came meanwhile, the calls made
    are one to each peer of the normalized [-peers] flag. *)
Theorem fresh_leader_posts_to_all req id role mode port peers x :
  quiet_reachable req (Main.server id role mode port peers) x →
  terminal x →
  Api.posts x ≡ₚ (fun u => (u, req)) <$> NormalizePeers peers.
Proof.
  intros Hq Hterm.
  destruct (quiet_posts req _ x Hq) as [_ Hposts].
  rewrite (Hposts Hterm). simpl.
  assert (∀ l : list string,
            filter (fun u => Api.blocked
                               (Main.server id role mode port peers) u = false) l
            = l) as ->; [|done].
  induction l as [|u l IH]; [done|].
  rewrite filter_cons, IH. by rewrite decide_True.
Qed.

End PeersMore.

Lemma quiet_finalMain : quiet_reachable req0 leaderMain finalMain.
Proof.
  assert (Peers (Api.cfg leaderMain) = [follower1URL]) as Hpeers
    by (vm_compute; reflexivity).
  unfold quiet_reachable, Api.init.
  eapply rtc_l. { left. by apply Api.step_call_broadcast. }
  rewrite Hpeers.
  eapply rtc_l. { left. apply Api.step_spawn. }
  eapply rtc_l. { left. by apply Api.step_loop_end_sync. }
  eapply rtc_l. { right. exists 0%nat. by eapply Api.step_check. }
  eapply rtc_l.
  { right. exists 0%nat.
    by eapply (Api.step_post _ _ _ _ _ _ _ _ _
                 (Repl.PostStatus 200 "200 OK")). }
  eapply rtc_l. { right. exists 0%nat. by eapply Api.step_done. }
  eapply rtc_l. { left. apply Api.step_wait. }
  eapply rtc_l. { left. apply Api.step_return. }
  eapply rtc_l. { left. apply Api.step_respond. }
  apply rtc_refl.
Qed.

Lemma fresh_leader_posts_to_all_witness :
  Api.posts finalMain
  ≡ₚ (fun u => (u, req0)) <$> @NormalizePeers urlTable "follower1:8081".
Proof.
  apply (@fresh_leader_posts_to_all urlTable req0 "leader-1" "leader" "sync"
           8080 "follower1:8081" finalMain).
  - apply quiet_finalMain.
  - split; [by eexists|]. split; [done|]. by repeat constructor.
Defined.

(* ===================================================================== *)
(** ** Theorems: the peer list as it is written *)
(* ===================================================================== *)

Section Strings.

Lemma append_cons (x : ascii) (a b : string) :
  String x a +:+ b = String x (a +:+ b).
Proof. reflexivity. Qed.

Lemma append_assoc_s (a b c : string) : (a +:+ b) +:+ c = a +:+ (b +:+ c).
Proof.
  induction a as [|x a IH]; [done|]. by rewrite !append_cons, IH.
Qed.

Lemma append_nil_s (a : string) : a +:+ "" = a.
Proof. induction a as [|x a IH]; [done|]. by rewrite append_cons, IH. Qed.

Lemma rev_app_append (s1 s2 : string) :
  String.rev_app s1 s2 = String.rev s1 +:+ s2.
Proof.
  unfold String.rev. revert s2.
  induction s1 as [|x s1 IH]; intros s2; [done|].
  change (String.rev_app s1 (String x s2)
          = String.rev_app s1 (String x "") +:+ s2).
  rewrite (IH (String x s2)), (IH (String x "")), append_assoc_s. done.
Qed.

Lemma rev_cons (x : ascii) (s : string) :
  String.rev (String x s) = String.rev s +:+ String x "".
Proof. apply (rev_app_append s (String x "")). Qed.

Lemma rev_append (a b : string) :
  String.rev (a +:+ b) = String.rev b +:+ String.rev a.
Proof.
  induction a as [|x a IH].
  - by rewrite append_nil_s.
  - by rewrite append_cons, !rev_cons, IH, append_assoc_s.
Qed.

Lemma rev_rev (s : string) : String.rev (String.rev s) = s.
Proof.
  induction s as [|x s IH]; [done|]. by rewrite rev_cons, rev_append, IH.
Qed.

Lemma noComma_append (a b : string) :
  noComma (a +:+ b) = noComma a && noComma b.
Proof.
  induction a as [|x a IH]; [done|].
  rewrite append_cons. simpl. by rewrite IH, andb_assoc.
Qed.

End Strings.

Section WhiteSpace.

(** The membership [r ∈ whiteRunes], case by case. *)
Ltac each_rune H :=
  unfold whiteRunes, asciiWhite in H; simpl in H;
  repeat (apply elem_of_cons in H as [->|H]);
  [..|by apply elem_of_nil in H].

Lemma rune_front r s :
  r ∈ whiteRunes → trimFront false (r +:+ s) = trimFront false s.
Proof. intros H. each_rune H; reflexivity. Qed.

Lemma rune_back r s :
  r ∈ whiteRunes → trimFront true (String.rev r +:+ s) = trimFront true s.
Proof. intros H. each_rune H; reflexivity. Qed.

Lemma rune_noComma r : r ∈ whiteRunes → noComma r = true.
Proof. intros H. each_rune H; reflexivity. Qed.

Lemma white_front w s :
  white w → trimFront false (w +:+ s) = trimFront false s.
Proof.
  induction 1 as [|r w Hr _ IH]; [done|].
  by rewrite append_assoc_s, rune_front.
Qed.

Lemma white_back w s :
  white w → trimFront true (String.rev w +:+ s) = trimFront true s.
Proof.
  intros Hw. revert s. induction Hw as [|r w Hr _ IH]; intros s; [done|].
  by rewrite rev_append, append_assoc_s, IH, rune_back.
Qed.

Lemma white_noComma w : white w → noComma w = true.
Proof.
  induction 1 as [|r w Hr _ IH]; [done|].
  rewrite noComma_append, rune_noComma, IH by done. done.
Qed.

Lemma plain_not_space c : plain c → isAsciiSpace c = false.
Proof.
  intros [_ Hc]. destruct (isAsciiSpace c) eqn:E; [|done]. destruct Hc.
  unfold isAsciiSpace in E.
  rewrite orb_true_iff, andb_true_iff, !Nat.leb_le, Nat.eqb_eq in E.
  rewrite <- (ascii_nat_embedding c).
  assert (nat_of_ascii c = 9 ∨ nat_of_ascii c = 10 ∨ nat_of_ascii c = 11
          ∨ nat_of_ascii c = 12 ∨ nat_of_ascii c = 13
          ∨ nat_of_ascii c = 32)%nat as Hn by lia.
  unfold asciiWhite.
  destruct Hn as [-> | [-> | [-> | [-> | [-> | ->]]]]]; simpl;
    repeat ((by apply list_elem_of_here) || apply list_elem_of_further).
Qed.

Lemma plain_not_rune2 c d : plain c → isSpace2 c d = false ∧ isSpace2 d c = false.
Proof.
  intros [Hc _]. unfold isSpace2. split.
  - destruct (Nat.eqb_spec (nat_of_ascii c) 194); [lia | done].
  - destruct (Nat.eqb_spec (nat_of_ascii c) 133),
             (Nat.eqb_spec (nat_of_ascii c) 160); try lia;
      simpl; apply andb_false_r.
Qed.

Lemma plain_not_rune3 c d e :
  plain c → isSpace3 c d e = false ∧ isSpace3 e d c = false.
Proof.
  intros [Hc _]. unfold isSpace3. split.
  - destruct (Nat.eqb_spec (nat_of_ascii c) 225),
             (Nat.eqb_spec (nat_of_ascii c) 226),
             (Nat.eqb_spec (nat_of_ascii c) 227); try lia; done.
  - destruct (Nat.eqb_spec (nat_of_ascii c) 128),
             (Nat.eqb_spec (nat_of_ascii c) 159),
             (Nat.eqb_spec (nat_of_ascii c) 168),
             (Nat.eqb_spec (nat_of_ascii c) 169),
             (Nat.eqb_spec (nat_of_ascii c) 175),
             (Nat.leb_spec 128 (nat_of_ascii c)); try lia;
      simpl; by rewrite !andb_false_r.
Qed.

(** [trimFront] stops at a byte of ASCII that is no white space. *)
Lemma trimFront_plain back c s :
  plain c → trimFront back (String c s) = String c s.
Proof.
  intros Hc. simpl. rewrite (plain_not_space c Hc).
  destruct s as [|d s]; [done|].
  destruct (plain_not_rune2 c d Hc) as [-> ->].
  destruct s as [|e s]; [by destruct back|].
  destruct (plain_not_rune3 c d e Hc) as [-> ->]. by destruct back.
Qed.

Lemma solid_rev s : solid s → ∃ b rest, plain b ∧ String.rev s = String b rest.
Proof.
  intros (a & Ha & [->|(m & b & Hb & ->)]).
  - by exists a, "".
  - exists b, (String.rev m +:+ String a "").
    split; [done|]. by rewrite rev_cons, rev_append.
Qed.

(** White space around an address is what [TrimSpace] removes, and a
    segment of white space is all removed. *)
Lemma TrimSpace_written g :
  segment_ok g → TrimSpace (written g) = addr g.
Proof.
  intros (Hl & Ht & _ & Ha). unfold TrimSpace, written.
  rewrite white_front by done. destruct Ha as [->|Hs].
  - change ("" +:+ trail g) with (trail g).
    rewrite <- (append_nil_s (trail g)), white_front by done. done.
  - pose proof Hs as (a & Hpa & Hform).
    assert (∃ rest, addr g = String a rest) as [rest Hrest].
    { destruct Hform as [->|(m & b & _ & ->)]; by eexists. }
    rewrite Hrest, append_cons, trimFront_plain by done.
    rewrite <- append_cons, <- Hrest, rev_append, white_back by done.
    destruct (solid_rev _ Hs) as (b & rest' & Hb & Hrev).
    rewrite Hrev, trimFront_plain by done. by rewrite <- Hrev, rev_rev.
Qed.

Lemma noComma_written g : segment_ok g → noComma (written g) = true.
Proof.
  intros (Hl & Ht & Hc & _). unfold written.
  rewrite !noComma_append, Hc, !white_noComma by done. done.
Qed.

End WhiteSpace.

Section PeersWritten.

Context `{NetURL}.

Lemma Split_concat (l : list string) :
  l ≠ [] → Forall (fun s => noComma s = true) l →
  Split (String.concat "," l) = l.
Proof.
  induction l as [|x l IH]; [done|]. intros _ Hall.
  apply Forall_cons in Hall as [Hx Hl].
  destruct l as [|y l]; [by apply Split_noComma|].
  change (String.concat "," (x :: y :: l))
    with (x +:+ "," +:+ String.concat "," (y :: l)).
  rewrite Split_app_comma, IH by done. by rewrite Split_noComma.
Qed.

Lemma fullURL_bare (p : string) :
  (∀ q u, Parse q = Some u → Host u ≠ "" → noSlash q = false) →
  noSlash p = true → fullURL p = None.
Proof.
  intros Hlaw Hp. unfold fullURL. destruct (Parse p) as [u|] eqn:Hu; [|done].
  case_bool_decide as Hs; [|done]. case_bool_decide as Hh; [|done].
  rewrite (Hlaw p u Hu Hh) in Hp. done.
Qed.

Lemma normalizeSegment_written g :
  (∀ q u, Parse q = Some u → Host u ≠ "" → noSlash q = false) →
  segment_ok g → normalizeSegment_spec (written g) = normalized g.
Proof.
  intros Hlaw Hg. unfold normalizeSegment_spec, normalized.
  rewrite (TrimSpace_written g Hg). case_bool_decide; [done|].
  destruct (noSlash (addr g)) eqn:Hb; [|done].
  by rewrite (fullURL_bare _ Hlaw Hb).
Qed.

Lemma omap_cons_eq {A B} (f : A → option B) (a : A) (l : list A) :
  omap f (a :: l) = option_list (f a) ++ omap f l.
Proof. simpl. by destruct (f a). Qed.

Lemma omap_written segs :
  (∀ q u, Parse q = Some u → Host u ≠ "" → noSlash q = false) →
  Forall segment_ok segs →
  omap normalizeSegment_spec (written <$> segs) = omap normalized segs.
Proof.
  intros Hlaw. induction 1 as [|g segs Hg _ IH]; [done|].
  rewrite fmap_cons, !omap_cons_eq, IH. by rewrite normalizeSegment_written.
Qed.

(** C8, as the code has it.  Take a peer list written as segments between
    commas, each segment white space, then an address or nothing, then
    white space.  Given that [net/url] finds a host only in an address with
    a slash in it, [NormalizePeers] yields, in the order of the segments:
    nothing for a segment without address (empty or white space only);
    "http://" and the address for a bare address such as [host:port]; and
    for an address that [net/url] reads with scheme and host the parsed
    URL as [net/url] writes it, which need not be the text that was
    given. *)
Theorem NormalizePeers_written (segs : list Segment) :
  (∀ q u, Parse q = Some u → Host u ≠ "" → noSlash q = false) →
  Forall segment_ok segs →
  NormalizePeers (String.concat "," (written <$> segs)) = omap normalized segs.
Proof.
  intros Hlaw Hsegs. rewrite NormalizePeers_omap.
  destruct (decide (segs = [])) as [->|Hne]; [done|].
  rewrite Split_concat.
  - by apply omap_written.
  - by destruct segs.
  - apply Forall_fmap. eapply Forall_impl; [exact Hsegs|].
    intros g Hg. by apply noComma_written.
Qed.

End PeersWritten.

Lemma plain_byte (c : ascii) :
  (nat_of_ascii c <? 128)%nat && bool_decide (c ∉ asciiWhite) = true → plain c.
Proof.
  intros [Hn Hw%bool_decide_eq_true]%andb_true_iff.
  apply Nat.ltb_lt in Hn. done.
Qed.

Lemma urlTable_law (q : string) (u : @URL urlTable) :
  @Parse urlTable q = Some u → @Host urlTable u ≠ "" → noSlash q = false.
Proof.
  simpl. repeat case_bool_decide; subst; intros [= <-]; simpl; done.
Qed.

Lemma segments0_ok : Forall segment_ok segments0.
Proof.
  assert (white " ") as Hsp.
  { apply (white_cons " " ""); [|constructor].
    unfold whiteRunes, asciiWhite. simpl.
    repeat ((by apply list_elem_of_here) || apply list_elem_of_further). }
  assert (white "") as Hnil by constructor.
  unfold segments0. repeat apply Forall_cons_2; try apply Forall_nil;
    unfold segment_ok; simpl; repeat split; try done; try (by left); right.
  - exists "f"%char. split; [by apply plain_byte|]. right.
    exists "ollower1:808", "1"%char. split; [by apply plain_byte | done].
  - exists "h"%char. split; [by apply plain_byte|]. right.
    exists "ttp://follower2:808", "2"%char. split; [by apply plain_byte | done].
  - exists "1"%char. split; [by apply plain_byte|]. right.
    exists "27.0.0.1:808", "3"%char. split; [by apply plain_byte | done].
Qed.

Lemma NormalizePeers_written_witness :
  @NormalizePeers urlTable (String.concat "," (written <$> segments0))
  = omap (@normalized urlTable) segments0.
Proof.
  apply (@NormalizePeers_written urlTable segments0).
  - apply urlTable_law.
  - apply segments0_ok.
Defined.

(** The peer list of [segments0] and what comes out of it. *)
Example segments0_run :
  String.concat "," (written <$> segments0)
  = " follower1:8081, ,http://follower2:8082,127.0.0.1:8083 ,"
  ∧ omap (@normalized urlTable) segments0
    = ["http://follower1:8081"; "http://follower2:8082";
       "http://127.0.0.1:8083"].
Proof. split; vm_compute; reflexivity. Qed.

(** C8 as the specification words it fails: an address that carries a
    scheme and a host is not always kept.  [net/url] reads the scheme of
    "HTTP://follower2:8082" as "http" and writes the URL back with it. *)
Lemma NormalizePeers_rewrites_scheme :
  (∃ u, @fullURL urlAnswers "HTTP://follower2:8082" = Some u)
  ∧ @NormalizePeers urlAnswers "HTTP://follower2:8082"
    = ["http://follower2:8082"]
  ∧ "http://follower2:8082" ≠ "HTTP://follower2:8082".
Proof.
  split; [by eexists|]. split; [vm_compute; reflexivity | discriminate].
Qed.

(** C9 as worded fails: a GET that names the same peer as [block] and as
    [unblock] is answered 405, neither is applied, and the peer, blocked
    before, is blocked after. *)
Lemma handlePartition_GET_applies_nothing :
  Api.QueryGet (Api.Query partitionBothGET) "block" = follower1URL
  ∧ Api.QueryGet (Api.Query partitionBothGET) "unblock" = follower1URL
  ∧ Api.blocked leader0 follower1URL = true
  ∧ Api.handlePartition leader0 partitionBothGET
    = (Api.respondError Api.StatusMethodNotAllowed "method not allowed",
       leader0)
  ∧ Api.blocked (Api.handlePartition leader0 partitionBothGET).2 follower1URL
    = true.
Proof. repeat split; reflexivity. Qed.
